(** * monad-hub-flow: the flow aggregation of [scripts/update-flows.ts]

    A shallow embedding of the pure part of the script: the amount
    conversion ([hexToBigInt], [weiToMon], [blockOffset]), the protocol
    loader ([loadProtocols]) and the aggregation loop of
    [buildFlowsForPeriod], followed by the properties of the
    specification that concern them.

    Conventions of the embedding.
    - A JavaScript [bigint] is a [Z]; [/] and [%] on bigints truncate
      towards zero and are [Z.quot] and [Z.rem].
    - A JavaScript [number] is an IEEE 754 binary64 value, modelled by
      the standard library's [spec_float] at precision 53 and maximal
      exponent 1024 (round to nearest, ties to even).
    - A JavaScript string is a [string]. The model is exact on ASCII
      strings, which is what addresses, topics and amounts are: there
      [toLowerCase] only moves [A-Z], and the white space that [BigInt]
      trims is the tab, the line feed, the vertical tab, the form feed,
      the carriage return and the space.
    - [undefined] is [None].
    - A thrown exception is the [Throw] case of [result].
    - A [Map] is an association list in insertion order ([JsMap]) where
      the iteration order is observed, and a [gmap] where it is only
      read with [get]. *)

From stdpp Require Import base strings list gmap.
From Stdlib Require Import ZArith Lia Ascii String SpecFloat.

Open Scope string_scope.
Open Scope list_scope.
Open Scope Z_scope.

(** ** Exceptions *)

Inductive exn : Type :=
| TypeError
| SyntaxError.

Inductive result (A : Type) : Type :=
| Ok (a : A)
| Throw (e : exn).

Arguments Ok {A} a.
Arguments Throw {A} e.

Definition bind {A B : Type} (r : result A) (k : A -> result B) : result B :=
  match r with
  | Ok a => k a
  | Throw e => Throw e
  end.

Notation "'let!' x ':=' r 'in' k" := (bind r (fun x => k))
  (at level 10, x pattern, r at level 100, k at level 200).

(** ** Numbers: IEEE 754 binary64 *)

Module Num.

Abbreviation number := spec_float.

Definition prec : Z := 53.
Definition emax : Z := 1024.

Definition zero : number := S754_zero false.

(** [Number(b)] for a bigint [b]: the nearest binary64 value. *)
Definition ofBigInt (b : Z) : number := binary_normalize prec emax b 0 false.

Definition add (x y : number) : number := SFadd prec emax x y.
Definition div (x y : number) : number := SFdiv prec emax x y.

(** [x <= y] and [x < y] on numbers; both are false on NaN. *)
Definition leb (x y : number) : bool := SFleb x y.
Definition ltb (x y : number) : bool := SFltb x y.

(** The numbers that [||] and [!] treat as false: [0], [-0], [NaN]. *)
Definition falsy (x : number) : bool :=
  match x with
  | S754_zero _ | S754_nan => true
  | _ => false
  end.

(** [x || 0] where [x] is a number or [undefined]. *)
Definition orZero (x : option number) : number :=
  match x with
  | Some v => if falsy v then zero else v
  | None => zero
  end.

(** Classes of numbers, for the statements below. *)

Definition emin : Z := SpecFloat.emin prec emax.

(** Zero of either sign, or a value of sign [s] that is not NaN. *)
Definition weak (s : bool) (x : number) : Prop :=
  match x with
  | S754_zero _ => True
  | S754_infinity s' => s' = s
  | S754_finite s' _ e => s' = s /\ emin <= e
  | S754_nan => False
  end.

(** Strictly positive: [+Infinity] or a finite positive value. *)
Definition positive (x : number) : Prop :=
  match x with
  | S754_infinity false => True
  | S754_finite false _ e => emin <= e
  | _ => False
  end.

Definition finitePositive (x : number) : bool :=
  match x with
  | S754_finite false _ _ => true
  | _ => false
  end.

(** The largest [decimals] for which [Number(base)] is finite. *)
Definition maxDecimals : N := 308.

End Num.

(** ** Strings *)

Definition lowerChar (c : ascii) : ascii :=
  let n := N_of_ascii c in
  if ((65 <=? n) && (n <=? 90))%N then ascii_of_N (n + 32) else c.

Fixpoint toLowerCase (s : string) : string :=
  match s with
  | EmptyString => EmptyString
  | String c s' => String (lowerChar c) (toLowerCase s')
  end.

(** [s.slice(n)] for a non-negative [n]. *)
Fixpoint slice (n : nat) (s : string) : string :=
  match n, s with
  | O, _ => s
  | S _, EmptyString => EmptyString
  | S k, String _ s' => slice k s'
  end.

Fixpoint startsWith (p s : string) : bool :=
  match p, s with
  | EmptyString, _ => true
  | String a p', String b s' => if Ascii.eqb a b then startsWith p' s' else false
  | String _ _, EmptyString => false
  end.

Fixpoint revString (s acc : string) : string :=
  match s with
  | EmptyString => acc
  | String c s' => revString s' (String c acc)
  end.

(** [s.split(sep)] for a non-empty separator: [skip] counts the
    characters of a matched separator that are still to be passed over,
    [cur] holds the current piece in reverse. *)
Fixpoint splitFrom (sep : string) (skip : nat) (cur : string) (s : string)
  : list string :=
  match s with
  | EmptyString => [revString cur EmptyString]
  | String c s' =>
      match skip with
      | S k => splitFrom sep k cur s'
      | O =>
          if startsWith sep s
          then revString cur EmptyString
               :: splitFrom sep (String.length sep - 1) EmptyString s'
          else splitFrom sep 0 (String c cur) s'
      end
  end.

Definition split (sep s : string) : list string := splitFrom sep 0 EmptyString s.

(** ** Bigints from strings: [BigInt(s)] *)

Definition isWhiteSpace (c : ascii) : bool :=
  let n := N_of_ascii c in
  (((9 <=? n) && (n <=? 13)) || (n =? 32))%N.

Fixpoint trimStart (s : string) : string :=
  match s with
  | EmptyString => EmptyString
  | String c s' => if isWhiteSpace c then trimStart s' else s
  end.

Fixpoint trimEnd (s : string) : string :=
  match s with
  | EmptyString => EmptyString
  | String c s' =>
      match trimEnd s' with
      | EmptyString => if isWhiteSpace c then EmptyString else String c EmptyString
      | r => String c r
      end
  end.

Definition trim (s : string) : string := trimEnd (trimStart s).

Definition digitValue (c : ascii) : option Z :=
  let n := Z.of_N (N_of_ascii c) in
  if (48 <=? n) && (n <=? 57) then Some (n - 48)
  else if (97 <=? n) && (n <=? 102) then Some (n - 87)
  else if (65 <=? n) && (n <=? 70) then Some (n - 55)
  else None.

Fixpoint parseDigits (radix : Z) (s : string) (acc : Z) : option Z :=
  match s with
  | EmptyString => Some acc
  | String c s' =>
      match digitValue c with
      | Some d => if d <? radix then parseDigits radix s' (acc * radix + d) else None
      | None => None
      end
  end.

Definition parseInteger (radix : Z) (s : string) : option Z :=
  match s with
  | EmptyString => None
  | _ => parseDigits radix s 0
  end.

(** The abstract operation StringToBigInt: white space is trimmed, the
    empty string is [0n], a [0x], [0o] or [0b] prefix selects the radix,
    a decimal literal may carry a sign; anything else is [None]. *)
Definition StringToBigInt (s : string) : option Z :=
  let t := trim s in
  if String.eqb t "" then Some 0
  else if startsWith "0x" t || startsWith "0X" t then parseInteger 16 (slice 2 t)
  else if startsWith "0o" t || startsWith "0O" t then parseInteger 8 (slice 2 t)
  else if startsWith "0b" t || startsWith "0B" t then parseInteger 2 (slice 2 t)
  else if startsWith "-" t then Z.opp <$> parseInteger 10 (slice 1 t)
  else if startsWith "+" t then parseInteger 10 (slice 1 t)
  else parseInteger 10 t.

Definition BigInt (s : string) : result Z :=
  match StringToBigInt s with
  | Some b => Ok b
  | None => Throw SyntaxError
  end.

(** [b.toString(16)] *)
Definition hexDigit (d : Z) : ascii :=
  if d <? 10 then ascii_of_N (Z.to_N (48 + d)) else ascii_of_N (Z.to_N (87 + d)).

Fixpoint hexDigits (fuel : nat) (n : Z) (acc : string) : string :=
  match fuel with
  | O => acc
  | S f =>
      let acc' := String (hexDigit (n mod 16)) acc in
      if n / 16 =? 0 then acc' else hexDigits f (n / 16) acc'
  end.

Definition toString16 (b : Z) : string :=
  let digits n := hexDigits (S (Z.to_nat (Z.log2 n))) n EmptyString in
  if b <? 0 then String "-" (digits (- b)) else digits b.

(** ** Helpers of the script *)

Definition hexToBigInt (hex : string) : result Z :=
  if String.eqb hex "" || String.eqb hex "0x" then Ok 0 else BigInt hex.

Definition weiToMon (value : Z) (decimals : N) : Num.number :=
  if value =? 0 then Num.zero
  else
    let base := 10 ^ Z.of_N decimals in
    let whole := Z.quot value base in
    let fraction := Z.rem value base in
    Num.add (Num.ofBigInt whole)
            (Num.div (Num.ofBigInt fraction) (Num.ofBigInt base)).

(** The default value of [decimals]. *)
Definition defaultDecimals : N := 18.

(** The bigint [from] of [blockOffset], before it is printed. *)
Definition blockOffsetFrom (latestBlock off : Z) : Z :=
  if off <? latestBlock then latestBlock - off else 0.

(** [offset] is an integral number, [BigInt(offset)] is its value. *)
Definition blockOffset (latestBlock offset : Z) : string :=
  "0x" +:+ toString16 (blockOffsetFrom latestBlock offset).

(** ** Types of the script *)

(** [contracts] is read through [cfg.contracts || []], so that a
    configuration without the field is accepted. *)
Record ProtocolConfig : Type := {
  contracts : option (list string);
  category : option string
}.

(** A [ProtocolsFile] is given by the sequence of its entries, in the
    order in which [Object.entries] enumerates them. *)
Definition ProtocolsFile : Type := list (string * ProtocolConfig).

Record Log : Type := {
  address : string;
  topics : list string;
  data : string;
  blockNumber : string;
  transactionHash : string
}.

(** [source] and [target] come from destructuring the pieces of a key
    and are [undefined] when the piece is missing. *)
Record FlowEntry : Type := {
  source : option string;
  target : option string;
  volume : Num.number
}.

Record FlowFile : Type := {
  period : string;
  lastUpdated : string;
  totalVolume : Num.number;
  flows : list FlowEntry
}.

Definition TRANSFER_TOPIC : string :=
  "0xddf252ad1be2c89b69c2b068fc378daa952ba7f163c4a11628f55a4df523b3ef".

(** ** Load protocols *)

Section Loader.

(** [JSON.parse] followed by the cast to [ProtocolsFile]. *)
Variable JSON_parse : string -> result ProtocolsFile.

(** [file] is the content of [protocols.json], [None] when the file
    does not exist. The second component lists the messages given to
    [console.warn]. *)
Definition loadProtocols (file : option string)
  : result ProtocolsFile * list string :=
  match file with
  | None => (Ok [], ["protocols.json not found, using empty config"])
  | Some raw => (JSON_parse raw, [])
  end.

End Loader.

(** ** Maps in insertion order *)

Module JsMap.

Definition t (V : Type) : Type := list (string * V).

Definition empty {V : Type} : t V := [].

Fixpoint get {V : Type} (k : string) (m : t V) : option V :=
  match m with
  | [] => None
  | (k', v) :: m' => if String.eqb k k' then Some v else get k m'
  end.

(** An existing key keeps its position, a new key goes last. *)
Fixpoint set {V : Type} (k : string) (v : V) (m : t V) : t V :=
  match m with
  | [] => [(k, v)]
  | (k', v') :: m' =>
      if String.eqb k k' then (k', v) :: m' else (k', v') :: set k v m'
  end.

Definition entries {V : Type} (m : t V) : list (string * V) := m.

Definition keys {V : Type} (m : t V) : list string := fst <$> m.

End JsMap.

(** ** Build flows *)

(** The map [contractToProtocol] of [buildFlowsForPeriod]. *)
(** [cfg.contracts || []] *)
Definition contractsOrEmpty (cfg : ProtocolConfig) : list string :=
  default [] (contracts cfg).

Definition contractToProtocol (protocols : ProtocolsFile) : gmap string string :=
  foldl (fun idx '(name, cfg) =>
           foldl (fun idx addr => <[toLowerCase addr := name]> idx)
                 idx (contractsOrEmpty cfg))
        ∅ protocols.

Definition flowKey (source target : string) : string :=
  source +:+ "|||" +:+ target.

Definition addFlow (source target : string) (vol : Num.number)
    (volumeMap : JsMap.t Num.number) : JsMap.t Num.number :=
  if Num.leb vol Num.zero then volumeMap
  else
    let key := flowKey source target in
    let prev := Num.orZero (JsMap.get key volumeMap) in
    JsMap.set key (Num.add prev vol) volumeMap.

(** The value of a lookup in a condition: [undefined] and the empty
    string count as false. *)
Definition truthy (v : option string) : bool :=
  match v with
  | Some s => negb (String.eqb s "")
  | None => false
  end.

(** The string of a lookup that is known to hold one. *)
Definition str (v : option string) : string := default "" v.

(** The three conditionals at the end of the loop body. *)
Definition applyFlows (fromProt toProt : option string) (valueMon : Num.number)
    (volumeMap : JsMap.t Num.number) : JsMap.t Num.number :=
  let volumeMap :=
    if negb (truthy fromProt) && truthy toProt
    then addFlow "Wallets" (str toProt) valueMon volumeMap
    else volumeMap in
  let volumeMap :=
    if truthy fromProt && negb (truthy toProt)
    then addFlow (str fromProt) "Wallets" valueMon volumeMap
    else volumeMap in
  let volumeMap :=
    if truthy fromProt && truthy toProt && negb (bool_decide (fromProt = toProt))
    then addFlow (str fromProt) (str toProt) valueMon volumeMap
    else volumeMap in
  volumeMap.

(** One iteration of the loop over the logs; [continue] is [Ok] of the
    unchanged map. Calling [toLowerCase] on a missing first topic
    throws. *)
Definition processLog (idx : gmap string string) (log : Log)
    (volumeMap : JsMap.t Num.number) : result (JsMap.t Num.number) :=
  match topics log !! 0%nat with
  | None => Throw TypeError
  | Some topic0 =>
      if negb (String.eqb (toLowerCase topic0) TRANSFER_TOPIC) then Ok volumeMap
      else if negb (truthy (topics log !! 1%nat))
              || negb (truthy (topics log !! 2%nat)) then Ok volumeMap
      else
        let from := "0x" +:+ toLowerCase (slice 26 (str (topics log !! 1%nat))) in
        let to := "0x" +:+ toLowerCase (slice 26 (str (topics log !! 2%nat))) in
        let! valueBig := hexToBigInt (data log) in
        let valueMon := weiToMon valueBig defaultDecimals in
        let fromProt := idx !! from in
        let toProt := idx !! to in
        Ok (applyFlows fromProt toProt valueMon volumeMap)
  end.

Fixpoint processLogs (idx : gmap string string) (logs : list Log)
    (volumeMap : JsMap.t Num.number) : result (JsMap.t Num.number) :=
  match logs with
  | [] => Ok volumeMap
  | log :: rest =>
      let! volumeMap' := processLog idx log volumeMap in
      processLogs idx rest volumeMap'
  end.

Definition flowOfEntry (entry : string * Num.number) : FlowEntry :=
  let parts := split "|||" entry.1 in
  {| source := parts !! 0%nat; target := parts !! 1%nat; volume := entry.2 |}.

Definition sumVolumes (flows : list FlowEntry) : Num.number :=
  foldl (fun sum f => Num.add sum (volume f)) Num.zero flows.

(** [buildFlowsForPeriod] from the point where the logs have been
    fetched; [now] is the time stamp [new Date().toISOString()]. *)
Definition buildFlowsForPeriod (protocols : ProtocolsFile) (logs : list Log)
    (now : string) : result FlowFile :=
  let contractToProtocol := contractToProtocol protocols in
  let! volumeMap := processLogs contractToProtocol logs JsMap.empty in
  let flows := flowOfEntry <$> JsMap.entries volumeMap in
  let totalVolume := sumVolumes flows in
  Ok {| period := "raw"; lastUpdated := now;
        totalVolume := totalVolume; flows := flows |}.

(** * Definitions for the statements *)

(** ** Strings *)

Fixpoint allChars (P : ascii -> bool) (s : string) : bool :=
  match s with
  | EmptyString => true
  | String c s' => P c && allChars P s'
  end.

Definition notWhiteSpace (c : ascii) : bool := negb (isWhiteSpace c).

Ltac hex_cases d H :=
  assert (d = 0 \/ d = 1 \/ d = 2 \/ d = 3 \/ d = 4 \/ d = 5 \/ d = 6 \/ d = 7
          \/ d = 8 \/ d = 9 \/ d = 10 \/ d = 11 \/ d = 12 \/ d = 13 \/ d = 14
          \/ d = 15) as H by lia;
  repeat (destruct H as [->|H]); try subst d.

(** ** Loader *)

(** A parser that accepts the empty object only, to run the loader. *)
Definition parseEmptyObject (raw : string) : result ProtocolsFile :=
  if String.eqb (trim raw) "{}" then Ok [] else Throw SyntaxError.

(** ** Classification, as the specification words it *)

(** The four cases of the specification, on the results of looking up
    the sender and the receiver in the reverse index. *)
Inductive Classification : Type :=
| WalletToProtocol (P : string)
| ProtocolToWallet (P : string)
| ProtocolToProtocol (P1 P2 : string)
| NoEdge.

Definition specClassify (sender receiver : option string) : Classification :=
  match sender, receiver with
  | None, Some P => WalletToProtocol P
  | Some P, None => ProtocolToWallet P
  | Some P1, Some P2 =>
      if bool_decide (P1 = P2) then NoEdge else ProtocolToProtocol P1 P2
  | None, None => NoEdge
  end.

Definition specEdge (c : Classification) : option (string * string) :=
  match c with
  | WalletToProtocol P => Some ("Wallets", P)
  | ProtocolToWallet P => Some (P, "Wallets")
  | ProtocolToProtocol P1 P2 => Some (P1, P2)
  | NoEdge => None
  end.

(** What an event of the given class contributes to the volume map. *)
Definition specApply (c : Classification) (vol : Num.number)
    (volumeMap : JsMap.t Num.number) : JsMap.t Num.number :=
  match specEdge c with
  | Some (source, target) => addFlow source target vol volumeMap
  | None => volumeMap
  end.

(** ** Contributions of the records

    The loop is read as two passes: each record yields the list of its
    effective calls to [addFlow] (the key and the amount of every call
    that gets past the guard on the amount), and the volume map is the
    result of recording these contributions in order. *)

(** The effect of a call of [addFlow] that passes the guard. *)
Definition record (volumeMap : JsMap.t Num.number) (c : string * Num.number)
  : JsMap.t Num.number :=
  JsMap.set c.1 (Num.add (Num.orZero (JsMap.get c.1 volumeMap)) c.2) volumeMap.

(** The source and target of the calls made by [applyFlows], in order. *)
Definition flowCalls (fromProt toProt : option string) : list (string * string) :=
  (if negb (truthy fromProt) && truthy toProt
   then [("Wallets", str toProt)] else [])
  ++ (if truthy fromProt && negb (truthy toProt)
      then [(str fromProt, "Wallets")] else [])
  ++ (if truthy fromProt && truthy toProt
         && negb (bool_decide (fromProt = toProt))
      then [(str fromProt, str toProt)] else []).

Definition callContribs (vol : Num.number) (calls : list (string * string))
  : list (string * Num.number) :=
  if Num.leb vol Num.zero then []
  else (fun call => (flowKey call.1 call.2, vol)) <$> calls.

Definition logContribs (idx : gmap string string) (log : Log)
  : result (list (string * Num.number)) :=
  match topics log !! 0%nat with
  | None => Throw TypeError
  | Some topic0 =>
      if negb (String.eqb (toLowerCase topic0) TRANSFER_TOPIC) then Ok []
      else if negb (truthy (topics log !! 1%nat))
              || negb (truthy (topics log !! 2%nat)) then Ok []
      else
        let from := "0x" +:+ toLowerCase (slice 26 (str (topics log !! 1%nat))) in
        let to := "0x" +:+ toLowerCase (slice 26 (str (topics log !! 2%nat))) in
        let! valueBig := hexToBigInt (data log) in
        Ok (callContribs (weiToMon valueBig defaultDecimals)
                         (flowCalls (idx !! from) (idx !! to)))
  end.

Fixpoint allContribs (idx : gmap string string) (logs : list Log)
  : result (list (string * Num.number)) :=
  match logs with
  | [] => Ok []
  | log :: rest =>
      let! c := logContribs idx log in
      let! cs := allContribs idx rest in
      Ok (c ++ cs)
  end.

(** The amounts contributed to one key, in order. *)
Definition amounts (key : string) (cs : list (string * Num.number))
  : list Num.number :=
  (filter (fun c => c.1 = key) cs).*2.

(** The running sum [(prev || 0) + vol] of [addFlow] over a list of
    amounts, from the value [prev] that the map holds for the key. *)
Definition accumulate (prev : option Num.number) (vols : list Num.number)
  : option Num.number :=
  foldl (fun acc vol => Some (Num.add (Num.orZero acc) vol)) prev vols.

(** ** Keys of the volume map *)

(** The strings without the character of the key separator. *)
Definition noBar (s : string) : bool :=
  allChars (fun c => negb (Ascii.eqb c "|")) s.

(** The source and target that [flowOfEntry] reads back from a key. *)
Definition pairOfKey (key : string) : option string * option string :=
  (split "|||" key !! 0%nat, split "|||" key !! 1%nat).

(** The keys built from two names without the separator character. *)
Definition goodKey (key : string) : Prop :=
  exists s t, key = flowKey s t /\ noBar s = true /\ noBar t = true.

Definition noBarValue (v : option string) : Prop :=
  match v with
  | Some name => noBar name = true
  | None => True
  end.

(** ** Normal numbers *)

(** A finite positive number with a full mantissa of 53 digits and an
    exponent within the range of binary64. *)
Definition normalPositive (x : Num.number) : bool :=
  match x with
  | S754_finite false m e =>
      (Z.pos (digits2_pos m) =? Num.prec) && (e <=? Num.emax - Num.prec)
  | _ => false
  end.

(** ** Hexadecimal texts *)

Fixpoint repeatChar (c : ascii) (n : nat) : string :=
  match n with
  | O => EmptyString
  | S k => String c (repeatChar c k)
  end.

(** The digits that [toString(16)] prints. *)
Definition isLowerHexDigit (c : ascii) : bool :=
  let n := Z.of_N (N_of_ascii c) in
  ((48 <=? n) && (n <=? 57)) || ((97 <=? n) && (n <=? 102)).

(** ** Records that make the aggregation throw *)

(** A record on which the loop body throws [e]: it has no topic at all,
    or it passes the checks on its three topics and [BigInt] rejects
    its data. *)
Definition Offending (log : Log) (e : exn) : Prop :=
  (topics log = [] /\ e = TypeError)
  \/ exists topic0 topicFrom topicTo rest,
       topics log = topic0 :: topicFrom :: topicTo :: rest
       /\ toLowerCase topic0 = TRANSFER_TOPIC
       /\ topicFrom <> "" /\ topicTo <> ""
       /\ hexToBigInt (data log) = Throw e.

(** ** Endpoints of the edges *)

(** The collective label, or the name of a protocol of the registry. *)
Definition Endpoint (protocols : ProtocolsFile) (name : string) : Prop :=
  name = "Wallets" \/ exists cfg, (name, cfg) ∈ protocols.

(** The ordered pairs of the edges of a report. *)
Definition edgePairs (report : FlowFile) : list (option string * option string) :=
  (fun f => (source f, target f)) <$> flows report.

(** A lookup result that is undefined or the name, without [|], of a
    protocol of the registry. *)
Definition RegistryName (protocols : ProtocolsFile) (v : option string) : Prop :=
  match v with
  | Some name => noBar name = true /\ exists cfg, (name, cfg) ∈ protocols
  | None => True
  end.

(** The key of an edge between two distinct endpoints of the registry. *)
Definition EdgeKey (protocols : ProtocolsFile) (key : string) : Prop :=
  exists s t,
    key = flowKey s t /\ noBar s = true /\ noBar t = true
    /\ Endpoint protocols s /\ Endpoint protocols t
    /\ s <> "" /\ t <> "" /\ (s = t -> s = "Wallets").

(** ** Sample data *)

Module Samples.

Definition config (addrs : list string) : ProtocolConfig :=
  {| contracts := Some addrs; category := None |}.

Definition alphaContract : string := "0xAAAAaaaaaaaaaaaaaaaaaaaaaaaaaaaaaaaaaaaa".
Definition betaContract : string := "0xbbbbbbbbbbbbbbbbbbbbbbbbbbbbbbbbbbbbbbbb".
Definition wallet1 : string := "0x1111111111111111111111111111111111111111".
Definition wallet2 : string := "0x2222222222222222222222222222222222222222".

(** An address as the 32-byte topic that carries it. *)
Definition topicOf (addr : string) : string :=
  "0x000000000000000000000000" +:+ slice 2 addr.

Definition transfer (sender receiver amount : string) : Log :=
  {| address := "0x760afe86e5de5fa0ee542fc7b7b713e1c5425701";
     topics := [TRANSFER_TOPIC; topicOf sender; topicOf receiver];
     data := amount;
     blockNumber := "0x10";
     transactionHash := "0xabcd" |}.

(** One token of 18 decimals, as the log data of a transfer. *)
Definition oneToken : string :=
  "0x0000000000000000000000000000000000000000000000000de0b6b3a7640000".

Definition alphaOnly : ProtocolsFile := [("Alpha", config [alphaContract])].

Definition one : Num.number := Num.ofBigInt 1.

End Samples.

(** * Properties *)

(** ** Facts on binary64 arithmetic

    Only the sign and the class (zero, finite, infinite, NaN) of the
    results matter below, together with a lower bound on the exponent of
    a finite value, which keeps a non-zero sum from rounding to zero. *)

Module NumFacts.

Import Num.

Lemma positive_ltb x : positive x -> ltb zero x = true.
Proof. destruct x as [s|[]| |[] m e]; simpl; tauto. Qed.

Lemma positive_not_falsy x : positive x -> falsy x = false.
Proof. destruct x as [s|[]| |[] m e]; simpl; tauto. Qed.

Lemma weak_false_leb x : weak false x -> leb zero x = true.
Proof. destruct x as [s|[]| |[] m e]; simpl; intuition congruence. Qed.

Lemma weak_true_leb x : weak true x -> leb x zero = true.
Proof. destruct x as [s|[]| |[] m e]; simpl; intuition congruence. Qed.

Lemma weak_false_positive x :
  weak false x -> leb x zero = false -> positive x.
Proof.
  destruct x as [s|[]| |[] m e]; simpl; try tauto; try discriminate.
Qed.

(** *** Shifting and rounding *)

Lemma iter_pos_preserves {A : Type} (P : A -> Prop) (f : A -> A) :
  (forall x, P x -> P (f x)) -> forall p x, P x -> P (iter_pos f p x).
Proof. intros Hf p. induction p; simpl; auto. Qed.

Lemma shr_1_nonneg r : 0 <= shr_m r -> 0 <= shr_m (shr_1 r).
Proof. destruct r as [[|[p|p|]|p] b c]; simpl; lia. Qed.

Lemma shr_1_digits r :
  Zdigits2 (shr_m (shr_1 r)) = Z.max 0 (Zdigits2 (shr_m r) - 1).
Proof. destruct r as [[|[p|p|]|[p|p|]] b c]; simpl; lia. Qed.

Lemma iter_shr_1_digits p : forall r,
  Zdigits2 (shr_m (iter_pos shr_1 p r))
  = Z.max 0 (Zdigits2 (shr_m r) - Z.pos p).
Proof.
  induction p as [p IH|p IH|]; intros r; simpl.
  - rewrite !IH, shr_1_digits. lia.
  - rewrite !IH. lia.
  - apply shr_1_digits.
Qed.

Lemma Zdigits2_pos m : 0 <= m -> 0 < Zdigits2 m -> 0 < m.
Proof. destruct m; simpl; lia. Qed.

Lemma shr_m_of_loc m l : shr_m (shr_record_of_loc m l) = m.
Proof. destruct l as [|[]]; reflexivity. Qed.

Lemma fexp_ge_emin e : emin <= fexp prec emax e.
Proof. unfold fexp, emin. lia. Qed.

(** The mantissa stays non-negative, the new exponent is at least
    [emin], and a positive mantissa whose exponent is at least [emin]
    keeps a non-zero digit. *)
Lemma shr_fexp_spec m e l :
  0 <= m ->
  0 <= shr_m (shr_fexp prec emax m e l).1
  /\ emin <= (shr_fexp prec emax m e l).2
  /\ (0 < m -> emin <= e -> 0 < shr_m (shr_fexp prec emax m e l).1).
Proof.
  intros Hm. unfold shr_fexp, shr.
  pose proof (fexp_ge_emin (Zdigits2 m + e)) as Hf.
  destruct (fexp prec emax (Zdigits2 m + e) - e) as [|p|p] eqn:Hn;
    simpl; rewrite ?shr_m_of_loc.
  - repeat split; lia.
  - split; [|split].
    + apply (iter_pos_preserves (fun r => 0 <= shr_m r)).
      * apply shr_1_nonneg.
      * now rewrite shr_m_of_loc.
    + lia.
    + intros Hpos He. apply Zdigits2_pos.
      * apply (iter_pos_preserves (fun r => 0 <= shr_m r)).
        -- apply shr_1_nonneg.
        -- now rewrite shr_m_of_loc.
      * rewrite iter_shr_1_digits, shr_m_of_loc.
        unfold fexp, SpecFloat.emin, emin, SpecFloat.emin, prec, emax in *.
        lia.
  - repeat split; lia.
Qed.

Lemma round_nearest_even_ge m l : m <= round_nearest_even m l.
Proof.
  destruct l as [|[]]; simpl; try lia. destruct (Z.even m); lia.
Qed.

Lemma binary_round_aux_weak sx mx ex lx :
  0 <= mx -> weak sx (binary_round_aux prec emax sx mx ex lx).
Proof.
  intros Hm. unfold binary_round_aux.
  destruct (shr_fexp_spec mx ex lx Hm) as (H1 & _ & _).
  destruct (shr_fexp prec emax mx ex lx) as [r1 e1]; simpl in H1.
  pose proof (round_nearest_even_ge (shr_m r1) (loc_of_shr_record r1)) as Hr.
  destruct (shr_fexp_spec (round_nearest_even (shr_m r1) (loc_of_shr_record r1))
              e1 loc_Exact ltac:(lia)) as (H2 & He & _).
  destruct (shr_fexp prec emax _ e1 loc_Exact) as [r2 e2]; simpl in H2, He.
  destruct (shr_m r2) as [|m|m]; simpl; [trivial| |lia].
  destruct (e2 <=? emax - prec); simpl; auto.
Qed.

Lemma binary_round_aux_nonzero sx mx ex :
  0 < mx -> emin <= ex ->
  forall s, binary_round_aux prec emax sx mx ex loc_Exact <> S754_zero s.
Proof.
  intros Hm He s. unfold binary_round_aux.
  destruct (shr_fexp_spec mx ex loc_Exact ltac:(lia)) as (_ & He1 & H1).
  specialize (H1 Hm He).
  destruct (shr_fexp prec emax mx ex loc_Exact) as [r1 e1]; simpl in H1, He1.
  pose proof (round_nearest_even_ge (shr_m r1) (loc_of_shr_record r1)) as Hr.
  destruct (shr_fexp_spec (round_nearest_even (shr_m r1) (loc_of_shr_record r1))
              e1 loc_Exact ltac:(lia)) as (_ & _ & H2).
  specialize (H2 ltac:(lia) He1).
  destruct (shr_fexp prec emax _ e1 loc_Exact) as [r2 e2]; simpl in H2.
  destruct (shr_m r2) as [|m|m]; [lia| |lia].
  destruct (e2 <=? emax - prec); discriminate.
Qed.

Lemma shl_align_exponent mx ex ex' :
  emin <= ex -> emin <= ex' -> emin <= (shl_align mx ex ex').2.
Proof. intros. unfold shl_align. destruct (ex' - ex); simpl; lia. Qed.

Lemma binary_round_weak sx mx ex : weak sx (binary_round prec emax sx mx ex).
Proof.
  unfold binary_round. destruct (shl_align _ _ _) as [mz ez].
  apply binary_round_aux_weak. lia.
Qed.

Lemma binary_round_nonzero sx mx ex :
  emin <= ex -> forall s, binary_round prec emax sx mx ex <> S754_zero s.
Proof.
  intros He s. unfold binary_round.
  pose proof (shl_align_exponent mx ex
                (fexp prec emax (Z.pos (digits2_pos mx) + ex)) He
                (fexp_ge_emin _)) as Hz.
  destruct (shl_align _ _ _) as [mz ez]; simpl in Hz.
  apply binary_round_aux_nonzero; lia.
Qed.

Lemma weak_false_nonzero_positive x :
  weak false x -> (forall s, x <> S754_zero s) -> positive x.
Proof.
  destruct x as [s|[]| |[] m e]; simpl; try tauto; try discriminate.
  - intros _ H. now destruct (H s).
  - intuition congruence.
Qed.

Lemma binary_round_positive mx ex :
  emin <= ex -> positive (binary_round prec emax false mx ex).
Proof.
  intros He. apply weak_false_nonzero_positive.
  - apply binary_round_weak.
  - now apply binary_round_nonzero.
Qed.

(** *** Conversion, division and addition *)

Lemma emin_nonpos : emin <= 0.
Proof. unfold emin, SpecFloat.emin, prec, emax. lia. Qed.

Lemma ofBigInt_nonneg b : 0 <= b -> weak false (ofBigInt b).
Proof.
  intros Hb. unfold ofBigInt. destruct b as [|p|p]; cbn [binary_normalize].
  - exact I.
  - apply binary_round_weak.
  - lia.
Qed.

Lemma ofBigInt_nonpos b : b <= 0 -> weak true (ofBigInt b).
Proof.
  intros Hb. unfold ofBigInt. destruct b as [|p|p]; cbn [binary_normalize].
  - exact I.
  - lia.
  - apply binary_round_weak.
Qed.

Lemma ofBigInt_positive b : 0 < b -> positive (ofBigInt b).
Proof.
  intros Hb. unfold ofBigInt. destruct b as [|p|p]; try lia.
  cbn [binary_normalize]. apply binary_round_positive, emin_nonpos.
Qed.

Lemma div_eucl_nonneg a b q r :
  0 <= a -> Z.div_eucl a (Z.pos b) = (q, r) -> 0 <= q.
Proof.
  intros Ha E. assert (q = a / Z.pos b) as -> by (unfold Z.div; now rewrite E).
  apply Z.div_pos; lia.
Qed.

Lemma div_weak s x y :
  weak s x -> finitePositive y = true -> weak s (div x y).
Proof.
  destruct y as [sy|sy| |[] my ey]; try discriminate. intros Hx _.
  destruct x as [sx|sx| |sx mx ex]; cbn [div SFdiv weak] in *.
  - exact I.
  - rewrite xorb_false_r. exact Hx.
  - exact Hx.
  - destruct Hx as [-> _]. rewrite xorb_false_r.
    unfold SFdiv_core_binary.
    match goal with
    | |- context [Z.div_eucl ?a (Z.pos my)] =>
        assert (0 <= a) as Ha;
        [| destruct (Z.div_eucl a (Z.pos my)) as [q r] eqn:E ]
    end.
    + match goal with |- 0 <= match ?n with _ => _ end => destruct n end;
        [lia | apply Z.shiftl_nonneg; lia | lia].
    + apply binary_round_aux_weak. eapply div_eucl_nonneg; eauto.
Qed.

Lemma add_weak s x y : weak s x -> weak s y -> weak s (add x y).
Proof.
  destruct x as [sx|sx| |sx mx ex], y as [sy|sy| |sy my ey];
    cbn [add SFadd weak]; try tauto.
  - intros _ _. now destruct sx, sy.
  - intros -> ->. now destruct s.
  - intros [-> Hx] [-> Hy].
    destruct (shl_align mx ex (Z.min ex ey)) as [a ea],
             (shl_align my ey (Z.min ex ey)) as [b eb].
    cbn [fst]. destruct s; cbn [cond_Zopp Z.opp].
    + change (Z.neg a + Z.neg b) with (Z.neg (a + b)).
      cbn [binary_normalize]. apply binary_round_weak.
    + change (Z.pos a + Z.pos b) with (Z.pos (a + b)).
      cbn [binary_normalize]. apply binary_round_weak.
Qed.

Lemma add_zero_positive y : positive y -> add zero y = y.
Proof. destruct y as [sy|[]| |[] my ey]; simpl; tauto. Qed.

Lemma add_positive x y : positive x -> positive y -> positive (add x y).
Proof.
  destruct x as [sx|[]| |[] mx ex], y as [sy|[]| |[] my ey];
    cbn [add SFadd positive]; try tauto.
  intros Hx Hy.
  destruct (shl_align mx ex (Z.min ex ey)) as [a ea],
           (shl_align my ey (Z.min ex ey)) as [b eb].
  cbn [fst cond_Zopp]. change (Z.pos a + Z.pos b) with (Z.pos (a + b)).
  cbn [binary_normalize]. apply binary_round_positive. lia.
Qed.

(** *** [weiToMon] *)

Lemma pow10_finite d :
  (d <= maxDecimals)%N -> finitePositive (ofBigInt (10 ^ Z.of_N d)) = true.
Proof.
  intros Hd.
  assert (forallb (fun n => finitePositive (ofBigInt (10 ^ Z.of_nat n)))
                  (seq 0 309) = true) as Hall by (vm_compute; reflexivity).
  rewrite forallb_forall in Hall.
  specialize (Hall (N.to_nat d)). rewrite N_nat_Z in Hall.
  apply Hall, in_seq. unfold maxDecimals in Hd. lia.
Qed.

Lemma weiToMon_nonneg value d :
  0 <= value -> (d <= maxDecimals)%N -> weak false (weiToMon value d).
Proof.
  intros Hv Hd. unfold weiToMon. destruct (value =? 0); [exact I|].
  assert (0 < 10 ^ Z.of_N d) by (apply Z.pow_pos_nonneg; lia).
  apply add_weak.
  - apply ofBigInt_nonneg, Z.quot_pos; lia.
  - apply div_weak.
    + apply ofBigInt_nonneg, Z.rem_nonneg; lia.
    + now apply pow10_finite.
Qed.

Lemma weiToMon_nonpos value d :
  value <= 0 -> (d <= maxDecimals)%N -> weak true (weiToMon value d).
Proof.
  intros Hv Hd. unfold weiToMon. destruct (value =? 0); [exact I|].
  assert (0 < 10 ^ Z.of_N d) as Hb by (apply Z.pow_pos_nonneg; lia).
  replace value with (- - value) by lia.
  rewrite Z.quot_opp_l, Z.rem_opp_l by lia.
  apply add_weak.
  - apply ofBigInt_nonpos.
    pose proof (Z.quot_pos (- value) (10 ^ Z.of_N d)). lia.
  - apply div_weak.
    + apply ofBigInt_nonpos.
      pose proof (Z.rem_nonneg (- value) (10 ^ Z.of_N d)). lia.
    + now apply pow10_finite.
Qed.

(** A converted amount is either rejected by the guard of [addFlow]
    or strictly positive. *)
Lemma weiToMon_guard value :
  leb (weiToMon value defaultDecimals) zero = true
  \/ positive (weiToMon value defaultDecimals).
Proof.
  assert (defaultDecimals <= maxDecimals)%N as Hd by (vm_compute; discriminate).
  destruct (Z.le_ge_cases value 0) as [Hv|Hv].
  - left. now apply weak_true_leb, weiToMon_nonpos.
  - destruct (leb (weiToMon value defaultDecimals) zero) eqn:E; [now left|].
    right. apply weak_false_positive; [now apply weiToMon_nonneg | exact E].
Qed.

End NumFacts.

(** ** Amount converter *)

(** *** Printing and reading back a block number *)

Lemma hexDigit_value d : 0 <= d < 16 -> digitValue (hexDigit d) = Some d.
Proof. intros Hd. hex_cases d H; reflexivity. Qed.

Lemma hexDigit_notWhiteSpace d : 0 <= d < 16 -> notWhiteSpace (hexDigit d) = true.
Proof. intros Hd. hex_cases d H; reflexivity. Qed.

Lemma trimEnd_allChars s : allChars notWhiteSpace s = true -> trimEnd s = s.
Proof.
  induction s as [|c s IH]; [reflexivity|]. simpl.
  intros [Hc Hs]%andb_prop. rewrite (IH Hs).
  destruct s; [|reflexivity].
  unfold notWhiteSpace in Hc. now destruct (isWhiteSpace c).
Qed.

Lemma hexDigits_allChars fuel : forall n acc,
  allChars notWhiteSpace acc = true ->
  allChars notWhiteSpace (hexDigits fuel n acc) = true.
Proof.
  induction fuel as [|fuel IH]; intros n acc Hacc; simpl; [exact Hacc|].
  assert (allChars notWhiteSpace (String (hexDigit (n mod 16)) acc) = true) as H.
  { simpl. rewrite Hacc, hexDigit_notWhiteSpace; [reflexivity|].
    apply Z.mod_pos_bound. lia. }
  destruct (n / 16 =? 0); [exact H | now apply IH].
Qed.

Lemma hexDigits_nonempty fuel : forall n acc,
  acc <> EmptyString -> hexDigits fuel n acc <> EmptyString.
Proof.
  induction fuel as [|fuel IH]; intros n acc Hacc; simpl; [exact Hacc|].
  destruct (n / 16 =? 0); [discriminate | now apply IH].
Qed.

Lemma hexDigits_parse fuel : forall n acc,
  0 <= n < 16 ^ Z.of_nat fuel ->
  parseDigits 16 (hexDigits fuel n acc) 0 = parseDigits 16 acc n.
Proof.
  induction fuel as [|fuel IH]; intros n acc Hn.
  - simpl in *. now replace n with 0 by lia.
  - rewrite Nat2Z.inj_succ, Z.pow_succ_r in Hn by lia.
    pose proof (Z.mod_pos_bound n 16 ltac:(lia)) as Hmod.
    pose proof (Z.div_mod n 16 ltac:(lia)) as Hdm.
    assert (parseDigits 16 (String (hexDigit (n mod 16)) acc) (n / 16)
            = parseDigits 16 acc n) as Hstep.
    { cbn [parseDigits]. rewrite hexDigit_value by exact Hmod.
      destruct (Z.ltb_spec (n mod 16) 16); [|lia].
      f_equal. lia. }
    cbn [hexDigits]. destruct (Z.eqb_spec (n / 16) 0) as [E|E].
    + rewrite E in Hstep. exact Hstep.
    + rewrite IH; [exact Hstep|].
      split; [apply Z.div_pos; lia | apply Z.div_lt_upper_bound; lia].
Qed.

Lemma toString16_fuel n :
  0 <= n -> n < 16 ^ Z.of_nat (S (Z.to_nat (Z.log2 n))).
Proof.
  intros Hn. rewrite Nat2Z.inj_succ, Z2Nat.id by apply Z.log2_nonneg.
  destruct (Z.eq_dec n 0) as [->|Hne]; [reflexivity|].
  pose proof (Z.log2_spec n ltac:(lia)) as [_ Hlt].
  eapply Z.lt_le_trans; [exact Hlt|].
  apply Z.pow_le_mono_l. lia.
Qed.

(** [hexToBigInt] reads back what [toString(16)] prints after ["0x"]. *)
Lemma hexToBigInt_toString16 n :
  0 <= n -> hexToBigInt ("0x" +:+ toString16 n) = Ok n.
Proof.
  intros Hn. unfold toString16.
  destruct (Z.ltb_spec n 0) as [?|_]; [lia|].
  set (h := hexDigits _ n EmptyString).
  assert (h <> EmptyString) as Hne.
  { subst h. cbn [hexDigits]. destruct (n / 16 =? 0); [discriminate|].
    now apply hexDigits_nonempty. }
  assert (allChars notWhiteSpace h = true) as Hws
      by (now apply hexDigits_allChars).
  assert (parseDigits 16 h 0 = Some n) as Hparse
      by (subst h; rewrite hexDigits_parse; [reflexivity|];
          split; [lia | now apply toString16_fuel]).
  destruct h as [|c s]; [congruence|].
  change ("0x" +:+ String c s) with (String "0" (String "x" (String c s))).
  unfold hexToBigInt, BigInt, StringToBigInt, trim.
  change (trimStart (String "0" (String "x" (String c s))))
    with (String "0" (String "x" (String c s))).
  rewrite trimEnd_allChars by exact Hws.
  cbn [String.eqb Ascii.eqb Bool.eqb orb startsWith slice parseInteger].
  now rewrite Hparse.
Qed.

Lemma blockOffsetFrom_max latestBlock off :
  blockOffsetFrom latestBlock off = Z.max (latestBlock - off) 0.
Proof. unfold blockOffsetFrom. destruct (Z.ltb_spec off latestBlock); lia. Qed.

(** C7. For [latestBlock >= 0] and [blocksBack >= 0], [blockOffset]
    returns the hexadecimal text of [max(latestBlock - blocksBack, 0)]:
    the block number it denotes is never negative, is exactly
    [latestBlock - blocksBack] whenever that difference is non-negative,
    and is the number that [hexToBigInt] reads back from the text. *)
Theorem blockOffset_spec (latestBlock blocksBack : Z) :
  0 <= latestBlock -> 0 <= blocksBack ->
  blockOffset latestBlock blocksBack
  = "0x" +:+ toString16 (Z.max (latestBlock - blocksBack) 0)
  /\ hexToBigInt (blockOffset latestBlock blocksBack)
     = Ok (Z.max (latestBlock - blocksBack) 0)
  /\ 0 <= blockOffsetFrom latestBlock blocksBack
  /\ (0 <= latestBlock - blocksBack ->
      blockOffsetFrom latestBlock blocksBack = latestBlock - blocksBack).
Proof.
  intros _ _. unfold blockOffset. rewrite blockOffsetFrom_max.
  repeat split; try lia.
  apply hexToBigInt_toString16. lia.
Qed.

Lemma blockOffset_spec_witness :
  (0 <= 1000 /\ 0 <= 86400)
  /\ blockOffset 1000 86400 = "0x" +:+ toString16 (Z.max (1000 - 86400) 0)
  /\ hexToBigInt (blockOffset 1000 86400) = Ok (Z.max (1000 - 86400) 0)
  /\ 0 <= blockOffsetFrom 1000 86400
  /\ (0 <= 1000 - 86400 -> blockOffsetFrom 1000 86400 = 1000 - 86400).
Proof. split; [lia | apply blockOffset_spec; lia]. Defined.

Example blockOffset_recent : blockOffset 100000 86400 = "0x3520".
Proof. reflexivity. Qed.

Example blockOffset_young_chain : blockOffset 1000 86400 = "0x0".
Proof. reflexivity. Qed.

(** *** [weiToMon] *)

(** C6 (counterexample). With 309 decimals the base [10^309] converts
    to [Infinity], and so does the remainder [10^309 - 1]: the quotient
    of the two is NaN, which is not a non-negative number. *)
Lemma weiToMon_nan_counterexample :
  0 <= 10 ^ 309 - 1
  /\ weiToMon (10 ^ 309 - 1) 309 = S754_nan
  /\ Num.leb Num.zero (weiToMon (10 ^ 309 - 1) 309) = false.
Proof. repeat split. vm_compute. discriminate. Qed.

(** C6 (amended). For every non-negative [raw] and every [decimals] up
    to 308 (so that [10^decimals] is a finite number; the script only
    uses 18), [weiToMon] returns exactly [0] when [raw] is [0], returns
    a non-negative number, and for [raw <> 0] returns the floating sum
    of the integer part [raw / 10^decimals] and of the floating quotient
    of the remainder [raw mod 10^decimals] by [10^decimals]. *)
Theorem weiToMon_spec (raw : Z) (decimals : N) :
  0 <= raw -> (decimals <= 308)%N ->
  weiToMon 0 decimals = Num.zero
  /\ Num.leb Num.zero (weiToMon raw decimals) = true
  /\ (raw <> 0 ->
      weiToMon raw decimals
      = Num.add (Num.ofBigInt (raw / 10 ^ Z.of_N decimals))
                (Num.div (Num.ofBigInt (raw mod 10 ^ Z.of_N decimals))
                         (Num.ofBigInt (10 ^ Z.of_N decimals)))).
Proof.
  intros Hraw Hd. split; [reflexivity|]. split.
  - now apply NumFacts.weak_false_leb, NumFacts.weiToMon_nonneg.
  - intros Hne. unfold weiToMon.
    destruct (Z.eqb_spec raw 0) as [?|_]; [contradiction|].
    assert (0 < 10 ^ Z.of_N decimals) by (apply Z.pow_pos_nonneg; lia).
    now rewrite Z.quot_div_nonneg, Z.rem_mod_nonneg by lia.
Qed.

Lemma weiToMon_spec_witness :
  (0 <= 1500000000000000000 /\ (18 <= 308)%N)
  /\ weiToMon 0 18 = Num.zero
  /\ Num.leb Num.zero (weiToMon 1500000000000000000 18) = true
  /\ (1500000000000000000 <> 0 ->
      weiToMon 1500000000000000000 18
      = Num.add (Num.ofBigInt (1500000000000000000 / 10 ^ Z.of_N 18))
                (Num.div (Num.ofBigInt (1500000000000000000 mod 10 ^ Z.of_N 18))
                         (Num.ofBigInt (10 ^ Z.of_N 18)))).
Proof. split; [split; lia | apply weiToMon_spec; lia]. Defined.

Example weiToMon_one_token :
  weiToMon 1000000000000000000 defaultDecimals = Num.ofBigInt 1.
Proof. vm_compute. reflexivity. Qed.

(** ** Protocol registry *)

(** C9. When [protocols.json] is absent the loader returns the empty
    registry and gives one warning, without throwing; when the file is
    present and [JSON.parse] throws on its content, the loader throws
    that same exception: nothing catches it. *)
Theorem loadProtocols_absent_or_malformed
    (JSON_parse : string -> result ProtocolsFile) :
  loadProtocols JSON_parse None
  = (Ok [], ["protocols.json not found, using empty config"])
  /\ (forall raw e,
        JSON_parse raw = Throw e ->
        loadProtocols JSON_parse (Some raw) = (Throw e, [])).
Proof.
  split; [reflexivity|]. intros raw e Hparse. simpl. now rewrite Hparse.
Qed.

Lemma loadProtocols_absent_or_malformed_witness :
  parseEmptyObject "not json" = Throw SyntaxError
  /\ loadProtocols parseEmptyObject (Some "not json") = (Throw SyntaxError, []).
Proof.
  split; [reflexivity|].
  apply (proj2 (loadProtocols_absent_or_malformed parseEmptyObject)).
  reflexivity.
Defined.

Section ReverseIndex.

Implicit Types (idx : gmap string string) (protocols : ProtocolsFile).

(** The inner loop: every address of the list is indexed under its
    lower-case form, the other keys are left alone. *)
Lemma lookup_add_contracts name addrs : forall idx k,
  foldl (fun idx addr => <[toLowerCase addr := name]> idx) idx addrs !! k
  = if bool_decide (k ∈ toLowerCase <$> addrs) then Some name else idx !! k.
Proof.
  induction addrs as [|a addrs IH]; intros idx k; cbn [foldl].
  - reflexivity.
  - rewrite fmap_cons, IH. repeat case_bool_decide; try reflexivity.
    + exfalso. set_solver.
    + destruct (decide (toLowerCase a = k)) as [<-|Hne].
      * now rewrite lookup_insert_eq.
      * exfalso. set_solver.
    + destruct (decide (toLowerCase a = k)) as [<-|Hne].
      * exfalso. set_solver.
      * now rewrite lookup_insert_ne.
Qed.

(** The outer loop, read from its last iteration. *)
Lemma contractToProtocol_snoc protocols name cfg k :
  contractToProtocol (protocols ++ [(name, cfg)]) !! k
  = if bool_decide (k ∈ toLowerCase <$> contractsOrEmpty cfg)
    then Some name
    else contractToProtocol protocols !! k.
Proof.
  unfold contractToProtocol. rewrite foldl_app. simpl.
  apply lookup_add_contracts.
Qed.

Lemma contractToProtocol_nil k : contractToProtocol [] !! k = None.
Proof. apply lookup_empty. Qed.

Lemma contractToProtocol_None protocols k :
  contractToProtocol protocols !! k = None
  <-> forall name cfg, (name, cfg) ∈ protocols ->
                       k ∉ toLowerCase <$> contractsOrEmpty cfg.
Proof.
  induction protocols as [|[name cfg] protocols IH] using rev_ind.
  - rewrite contractToProtocol_nil. split; [|reflexivity].
    intros _ name cfg Hin. now apply elem_of_nil in Hin.
  - rewrite contractToProtocol_snoc. case_bool_decide as Hk.
    + split; [discriminate|]. intros Hall. exfalso.
      apply (Hall name cfg); [set_solver | exact Hk].
    + rewrite IH. split.
      * intros Hall name' cfg' [Hin|Hin]%elem_of_app;
          [now apply (Hall name' cfg')|].
        apply list_elem_of_singleton in Hin. inversion Hin; subst. exact Hk.
      * intros Hall name' cfg' Hin. apply (Hall name' cfg'). set_solver.
Qed.

Lemma contractToProtocol_later protocols after k :
  (forall name cfg, (name, cfg) ∈ after ->
                    k ∉ toLowerCase <$> contractsOrEmpty cfg) ->
  contractToProtocol (protocols ++ after) !! k
  = contractToProtocol protocols !! k.
Proof.
  induction after as [|[name cfg] after IH] using rev_ind; intros Hall.
  - now rewrite app_nil_r.
  - rewrite app_assoc, contractToProtocol_snoc.
    rewrite bool_decide_eq_false_2 by (apply (Hall name cfg); set_solver).
    apply IH. intros name' cfg' Hin. apply (Hall name' cfg'). set_solver.
Qed.

(** Every indexed name is the name of a protocol of the registry. *)
Lemma contractToProtocol_Some protocols k name :
  contractToProtocol protocols !! k = Some name ->
  exists cfg, (name, cfg) ∈ protocols.
Proof.
  induction protocols as [|[name' cfg'] protocols IH] using rev_ind.
  - now rewrite contractToProtocol_nil.
  - rewrite contractToProtocol_snoc. case_bool_decide.
    + intros [= ->]. exists cfg'. set_solver.
    + intros [cfg Hin]%IH. exists cfg. set_solver.
Qed.

End ReverseIndex.

(** C8. Every address declared by a protocol is indexed under its
    lower-case form, and it maps to the protocol that declares it last:
    if no protocol processed after [name] declares an address with the
    same lower-case form, the index maps it to [name], whatever the
    protocols processed before declared. Nothing else is indexed: a key
    is absent exactly when no protocol declares an address whose
    lower-case form it is. *)
Theorem contractToProtocol_last_write_wins
    (before after : ProtocolsFile) (name : string) (cfg : ProtocolConfig)
    (addr : string) :
  addr ∈ contractsOrEmpty cfg ->
  (forall name' cfg' addr',
     (name', cfg') ∈ after -> addr' ∈ contractsOrEmpty cfg' ->
     toLowerCase addr' <> toLowerCase addr) ->
  contractToProtocol (before ++ (name, cfg) :: after) !! toLowerCase addr
  = Some name
  /\ (forall k,
        contractToProtocol (before ++ (name, cfg) :: after) !! k = None
        <-> forall name' cfg' addr',
              (name', cfg') ∈ before ++ (name, cfg) :: after ->
              addr' ∈ contractsOrEmpty cfg' -> toLowerCase addr' <> k).
Proof.
  intros Haddr Hafter. split.
  - rewrite (cons_middle (name, cfg)), app_assoc.
    rewrite contractToProtocol_later.
    + rewrite contractToProtocol_snoc, bool_decide_eq_true_2; [reflexivity|].
      now apply list_elem_of_fmap_2.
    + intros name' cfg' Hin [addr' [Heq Hin']]%list_elem_of_fmap.
      now apply (Hafter name' cfg' addr').
  - intros k. rewrite contractToProtocol_None. split.
    + intros Hall name' cfg' addr' Hin Hin' <-.
      apply (Hall name' cfg' Hin). now apply list_elem_of_fmap_2.
    + intros Hall name' cfg' Hin [addr' [-> Hin']]%list_elem_of_fmap.
      now apply (Hall name' cfg' addr').
Qed.

Lemma contractToProtocol_last_write_wins_witness :
  let before := [("Alpha", Samples.config ["0xAbCd"])] in
  let after := [("Gamma", Samples.config ["0x1234"])] in
  let cfg := Samples.config ["0xaBcD"; "0x5678"] in
  contractToProtocol (before ++ ("Beta", cfg) :: after) !! toLowerCase "0xaBcD"
  = Some "Beta".
Proof.
  intros before after cfg.
  refine (proj1 (contractToProtocol_last_write_wins
                   before after "Beta" cfg "0xaBcD" _ _)).
  - apply list_elem_of_here.
  - intros name' cfg' addr' Hin Haddr.
    apply list_elem_of_singleton in Hin. inversion Hin; subst.
    apply list_elem_of_singleton in Haddr. subst. discriminate.
Defined.

(** ** Flow aggregator: classification *)

(** At most one of the three conditions of the loop body holds. *)
Lemma applyFlows_conditions_exclusive (fromProt toProt : option string) :
  let c1 := negb (truthy fromProt) && truthy toProt in
  let c2 := truthy fromProt && negb (truthy toProt) in
  let c3 := truthy fromProt && truthy toProt
            && negb (bool_decide (fromProt = toProt)) in
  (c1 && c2 = false) /\ (c1 && c3 = false) /\ (c2 && c3 = false).
Proof.
  simpl. destruct (truthy fromProt), (truthy toProt),
    (bool_decide (fromProt = toProt)); repeat split.
Qed.

Lemma truthy_Some (s : string) : s <> "" -> truthy (Some s) = true.
Proof.
  intros Hne. unfold truthy. destruct (String.eqb_spec s ""); [contradiction|].
  reflexivity.
Qed.

(** C1 (amended). For protocol names that are not the empty string,
    the loop body does what exactly one of the four cases says: an
    unmapped sender and a receiver mapped to [P] add to the edge
    [("Wallets", P)]; a sender mapped to [P] and an unmapped receiver
    add to [(P, "Wallets")]; a sender mapped to [P1] and a receiver
    mapped to a different [P2] add to [(P1, P2)]; two unmapped
    endpoints, or two endpoints of the same protocol, leave the volume
    map unchanged. *)
Theorem classification_cases (fromProt toProt : option string)
    (valueMon : Num.number) (volumeMap : JsMap.t Num.number) :
  fromProt <> Some "" -> toProt <> Some "" ->
  applyFlows fromProt toProt valueMon volumeMap
  = specApply (specClassify fromProt toProt) valueMon volumeMap.
Proof.
  intros Hf Ht. unfold applyFlows, specApply.
  destruct fromProt as [f|], toProt as [t|]; cbn [specClassify].
  - rewrite !truthy_Some by congruence. cbn [negb andb].
    destruct (decide (f = t)) as [->|Hne].
    + now rewrite !bool_decide_eq_true_2.
    + rewrite !bool_decide_eq_false_2 by congruence. reflexivity.
  - rewrite truthy_Some by congruence. reflexivity.
  - rewrite truthy_Some by congruence. reflexivity.
  - reflexivity.
Qed.

Lemma classification_cases_witness :
  (Some "Alpha" <> Some "" /\ Some "Beta" <> Some "")
  /\ applyFlows (Some "Alpha") (Some "Beta") Samples.one JsMap.empty
     = specApply (specClassify (Some "Alpha") (Some "Beta")) Samples.one
         JsMap.empty.
Proof.
  split; [split; discriminate|].
  apply classification_cases; discriminate.
Defined.

(** C1 (counterexample). A protocol may be named by the empty string.
    Its contract is mapped (to [""]), but the conditions of the loop
    body take the empty name for an unmapped endpoint: a transfer from
    a wallet to that contract adds no edge, where the first case asks
    for the edge [("Wallets", "")]. *)
Lemma classification_empty_name_counterexample :
  let protocols := [("", Samples.config [Samples.alphaContract])] in
  let idx := contractToProtocol protocols in
  let log := Samples.transfer Samples.wallet1 Samples.alphaContract
               Samples.oneToken in
  idx !! toLowerCase Samples.wallet1 = None
  /\ idx !! toLowerCase Samples.alphaContract = Some ""
  /\ specClassify None (Some "") = WalletToProtocol ""
  /\ processLog idx log JsMap.empty = Ok []
  /\ specApply (specClassify None (Some "")) Samples.one JsMap.empty
     = [("Wallets|||", Samples.one)]
  /\ applyFlows None (Some "") Samples.one JsMap.empty
     <> specApply (specClassify None (Some "")) Samples.one JsMap.empty.
Proof. vm_compute. repeat split; discriminate. Qed.

(** ** Flow aggregator: skipped records *)

Lemma addFlow_rejected source target vol volumeMap :
  Num.leb vol Num.zero = true -> addFlow source target vol volumeMap = volumeMap.
Proof. intros H. unfold addFlow. now rewrite H. Qed.

Lemma applyFlows_rejected fromProt toProt vol volumeMap :
  Num.leb vol Num.zero = true ->
  applyFlows fromProt toProt vol volumeMap = volumeMap.
Proof.
  intros H. unfold applyFlows. rewrite !addFlow_rejected by exact H.
  now repeat match goal with |- context [if ?b then _ else _] => destruct b end.
Qed.

(** C10 (counterexample). A record without any topic lacks a sender
    topic, but it is not skipped: reading its first topic gives
    [undefined], and calling [toLowerCase] on it throws. *)
Lemma processLog_no_topics_counterexample :
  let log := {| address := "0x760afe86e5de5fa0ee542fc7b7b713e1c5425701";
                topics := []; data := "0x";
                blockNumber := "0x10"; transactionHash := "0xabcd" |} in
  topics log !! 1%nat = None
  /\ data log = "0x"
  /\ processLog (contractToProtocol Samples.alphaOnly) log JsMap.empty
     = Throw TypeError
  /\ buildFlowsForPeriod Samples.alphaOnly [log] "2024-01-01T00:00:00.000Z"
     = Throw TypeError.
Proof. repeat split. Qed.

(** C10 (amended). A record that has a first topic is skipped, that is
    the volume map is returned unchanged and nothing is thrown, when the
    first topic differs from the Transfer signature once both are in
    lower case, or the sender topic or the receiver topic is missing,
    or the data field is empty or ["0x"]. *)
Theorem processLog_skips (idx : gmap string string) (log : Log)
    (volumeMap : JsMap.t Num.number) (topic0 : string) :
  topics log !! 0%nat = Some topic0 ->
  toLowerCase topic0 <> TRANSFER_TOPIC
  \/ topics log !! 1%nat = None
  \/ topics log !! 2%nat = None
  \/ data log = ""
  \/ data log = "0x" ->
  processLog idx log volumeMap = Ok volumeMap.
Proof.
  intros H0 Hskip. unfold processLog. rewrite H0.
  destruct (String.eqb_spec (toLowerCase topic0) TRANSFER_TOPIC) as [Heq|_];
    [|reflexivity].
  cbn [negb].
  destruct (negb (truthy (topics log !! 1%nat))
            || negb (truthy (topics log !! 2%nat))) eqn:Htopics;
    [reflexivity|].
  destruct Hskip as [Hne|[H1|[H2|Hdata]]].
  - contradiction.
  - now rewrite H1 in Htopics.
  - rewrite H2 in Htopics. now destruct (truthy (topics log !! 1%nat)).
  - assert (hexToBigInt (data log) = Ok 0) as ->
        by (destruct Hdata as [-> | ->]; reflexivity).
    cbn [bind]. now rewrite applyFlows_rejected.
Qed.

Lemma processLog_skips_witness :
  let log := Samples.transfer Samples.wallet1 Samples.alphaContract "0x" in
  topics log !! 0%nat = Some TRANSFER_TOPIC
  /\ data log = "0x"
  /\ processLog (contractToProtocol Samples.alphaOnly) log
       [("Wallets|||Alpha", Samples.one)]
     = Ok [("Wallets|||Alpha", Samples.one)].
Proof.
  intros log. split; [reflexivity|]. split; [reflexivity|].
  apply (processLog_skips _ log _ TRANSFER_TOPIC); [reflexivity|].
  right; right; right; right. reflexivity.
Defined.

(** ** Flow aggregator: total volume *)

(** C4. The total volume of a report is the sum of the volumes of its
    edges, a left-to-right sum over the finished flows list starting
    from [0]: the flows are the entries of the volume map reached after
    the last record, so nothing of the total is computed while the
    records are processed. *)
Theorem totalVolume_sums_flows (protocols : ProtocolsFile) (logs : list Log)
    (now : string) (report : FlowFile) :
  buildFlowsForPeriod protocols logs now = Ok report ->
  totalVolume report
  = foldl (fun sum f => Num.add sum (volume f)) Num.zero (flows report)
  /\ exists volumeMap,
       processLogs (contractToProtocol protocols) logs JsMap.empty = Ok volumeMap
       /\ flows report = flowOfEntry <$> JsMap.entries volumeMap
       /\ totalVolume report = foldl Num.add Num.zero volumeMap.*2.
Proof.
  unfold buildFlowsForPeriod.
  destruct (processLogs _ logs JsMap.empty) as [volumeMap|e]; [|discriminate].
  cbn [bind]. intros [= <-]. cbn [totalVolume flows].
  split; [reflexivity|]. exists volumeMap. repeat split.
  unfold sumVolumes, JsMap.entries. generalize Num.zero.
  induction volumeMap as [|[k v] volumeMap IH]; intros z; [reflexivity|].
  cbn. apply IH.
Qed.

Lemma totalVolume_sums_flows_witness :
  let logs := [Samples.transfer Samples.wallet1 Samples.alphaContract
                 Samples.oneToken;
               Samples.transfer Samples.betaContract Samples.wallet2
                 Samples.oneToken] in
  let protocols := [("Alpha", Samples.config [Samples.alphaContract]);
                    ("Beta", Samples.config [Samples.betaContract])] in
  exists report,
    buildFlowsForPeriod protocols logs "2024-01-01T00:00:00.000Z" = Ok report
    /\ totalVolume report
       = foldl (fun sum f => Num.add sum (volume f)) Num.zero (flows report).
Proof.
  intros logs protocols. eexists. split; [vm_compute; reflexivity|].
  refine (proj1 (totalVolume_sums_flows protocols logs
                   "2024-01-01T00:00:00.000Z" _ _)).
  vm_compute. reflexivity.
Defined.

(** ** Maps in insertion order: facts *)

Module JsMapFacts.

Import JsMap.

Section Facts.

Context {V : Type}.
Implicit Types (m : t V) (k : string) (v : V).

Lemma get_set k k' v m :
  get k (set k' v m) = if bool_decide (k = k') then Some v else get k m.
Proof.
  induction m as [|[k0 v0] m IH]; cbn [set get].
  - case_bool_decide as Hk.
    + subst. now rewrite String.eqb_refl.
    + now apply String.eqb_neq in Hk as ->.
  - destruct (String.eqb_spec k' k0) as [->|Hne]; cbn [get].
    + destruct (String.eqb_spec k k0) as [->|Hne'].
      * now rewrite bool_decide_eq_true_2.
      * now rewrite bool_decide_eq_false_2.
    + destruct (String.eqb_spec k k0) as [->|Hne']; [|exact IH].
      now rewrite bool_decide_eq_false_2 by congruence.
Qed.

Lemma keys_set k v m :
  keys (set k v m) = if bool_decide (k ∈ keys m) then keys m else keys m ++ [k].
Proof.
  unfold keys. induction m as [|[k0 v0] m IH]; cbn [set fmap list_fmap fst].
  - rewrite bool_decide_eq_false_2 by apply not_elem_of_nil. reflexivity.
  - destruct (String.eqb_spec k k0) as [->|Hne]; cbn [fmap list_fmap fst].
    + rewrite bool_decide_eq_true_2 by apply list_elem_of_here. reflexivity.
    + fold (fst <$> set k v m). fold (fst <$> m). rewrite IH.
      case_bool_decide as Hin.
      * rewrite bool_decide_eq_true_2 by now apply list_elem_of_further.
        reflexivity.
      * rewrite bool_decide_eq_false_2; [reflexivity|].
        intros [?|?]%elem_of_cons; congruence.
Qed.

Lemma get_Some_elem k v m : get k m = Some v -> (k, v) ∈ m.
Proof.
  induction m as [|[k0 v0] m IH]; cbn [get]; [discriminate|].
  destruct (String.eqb_spec k k0) as [->|Hne].
  - intros [= ->]. apply list_elem_of_here.
  - intros H. apply list_elem_of_further, IH, H.
Qed.

Lemma elem_get k v m : NoDup (keys m) -> (k, v) ∈ m -> get k m = Some v.
Proof.
  unfold keys. induction m as [|[k0 v0] m IH]; cbn [get fmap list_fmap fst].
  - intros _ Hin. now apply elem_of_nil in Hin.
  - fold (fst <$> m). intros [Hk0 Hnd]%NoDup_cons [Heq|Hin]%elem_of_cons.
    + injection Heq as -> ->. now rewrite String.eqb_refl.
    + destruct (String.eqb_spec k k0) as [->|Hne]; [|now apply IH].
      exfalso. apply Hk0. now apply (list_elem_of_fmap_2 fst) in Hin.
Qed.

Lemma NoDup_keys_set k v m : NoDup (keys m) -> NoDup (keys (set k v m)).
Proof.
  intros Hnd. rewrite keys_set. case_bool_decide as Hin; [exact Hnd|].
  apply NoDup_app. repeat split; [exact Hnd | | apply NoDup_singleton].
  intros x Hx ->%list_elem_of_singleton. contradiction.
Qed.

Lemma Forall_set (P : V -> Prop) k v m :
  Forall (fun e => P e.2) m -> P v -> Forall (fun e => P e.2) (set k v m).
Proof.
  intros Hm Hv. induction Hm as [|[k0 v0] m H0 Hm IH]; cbn [set].
  - now repeat constructor.
  - destruct (String.eqb k k0); constructor; auto.
Qed.

Lemma Forall_get (P : V -> Prop) k v m :
  Forall (fun e => P e.2) m -> get k m = Some v -> P v.
Proof.
  intros Hm Hget%get_Some_elem. rewrite Forall_forall in Hm.
  exact (Hm (k, v) Hget).
Qed.

Lemma elem_keys k v m : (k, v) ∈ m -> k ∈ keys m.
Proof. intros Hin. exact (list_elem_of_fmap_2 fst m (k, v) Hin). Qed.

Lemma keys_elem k m : k ∈ keys m -> exists v, (k, v) ∈ m.
Proof.
  intros [[k' v] [-> Hin]]%list_elem_of_fmap. now exists v.
Qed.

End Facts.

End JsMapFacts.

(** ** Flow aggregator: the contributions of the records *)

Section Contributions.

Implicit Types (idx : gmap string string) (m : JsMap.t Num.number).
Implicit Types (cs : list (string * Num.number)).

Lemma applyFlows_calls fromProt toProt vol m :
  applyFlows fromProt toProt vol m
  = foldl (fun m call => addFlow call.1 call.2 vol m) m
          (flowCalls fromProt toProt).
Proof.
  unfold applyFlows, flowCalls.
  destruct (negb (truthy fromProt) && truthy toProt),
    (truthy fromProt && negb (truthy toProt)),
    (truthy fromProt && truthy toProt && negb (bool_decide (fromProt = toProt)));
    reflexivity.
Qed.

Lemma calls_contribs vol calls : forall m,
  foldl (fun m call => addFlow call.1 call.2 vol m) m calls
  = foldl record m (callContribs vol calls).
Proof.
  unfold callContribs. destruct (Num.leb vol Num.zero) eqn:Hvol.
  - induction calls as [|call calls IH]; intros m; cbn [foldl]; [reflexivity|].
    now rewrite addFlow_rejected.
  - induction calls as [|call calls IH]; intros m; [reflexivity|].
    rewrite fmap_cons. cbn [foldl]. rewrite <- IH. f_equal.
    unfold addFlow. now rewrite Hvol.
Qed.

Lemma processLog_contribs idx log m :
  processLog idx log m
  = let! cs := logContribs idx log in Ok (foldl record m cs).
Proof.
  unfold processLog, logContribs.
  destruct (topics log !! 0%nat) as [topic0|]; [|reflexivity].
  destruct (negb (String.eqb (toLowerCase topic0) TRANSFER_TOPIC));
    [reflexivity|].
  destruct (negb (truthy (topics log !! 1%nat))
            || negb (truthy (topics log !! 2%nat))); [reflexivity|].
  destruct (hexToBigInt (data log)) as [valueBig|e]; [|reflexivity].
  cbn [bind]. now rewrite applyFlows_calls, calls_contribs.
Qed.

Lemma processLogs_contribs idx logs : forall m,
  processLogs idx logs m
  = let! cs := allContribs idx logs in Ok (foldl record m cs).
Proof.
  induction logs as [|log logs IH]; intros m; [reflexivity|].
  cbn [processLogs allContribs]. rewrite processLog_contribs.
  destruct (logContribs idx log) as [c|e]; [|reflexivity].
  cbn [bind]. rewrite IH.
  destruct (allContribs idx logs) as [cs|e]; [|reflexivity].
  cbn [bind]. now rewrite foldl_app.
Qed.

Lemma get_record key m c :
  JsMap.get key (record m c)
  = if bool_decide (c.1 = key)
    then Some (Num.add (Num.orZero (JsMap.get key m)) c.2)
    else JsMap.get key m.
Proof.
  unfold record. rewrite JsMapFacts.get_set.
  repeat case_bool_decide; congruence.
Qed.

Lemma get_foldl_record key cs : forall m,
  JsMap.get key (foldl record m cs)
  = accumulate (JsMap.get key m) (amounts key cs).
Proof.
  unfold accumulate, amounts.
  induction cs as [|c cs IH]; intros m; [reflexivity|].
  cbn [foldl]. rewrite IH, get_record, filter_cons.
  destruct (decide (c.1 = key)) as [Hk|Hk].
  - now rewrite bool_decide_eq_true_2.
  - now rewrite bool_decide_eq_false_2.
Qed.

Lemma NoDup_keys_foldl_record cs : forall m,
  NoDup (JsMap.keys m) -> NoDup (JsMap.keys (foldl record m cs)).
Proof.
  induction cs as [|c cs IH]; intros m Hnd; [exact Hnd|].
  cbn [foldl]. apply IH, JsMapFacts.NoDup_keys_set, Hnd.
Qed.

Lemma keys_foldl_record key cs : forall m,
  key ∈ JsMap.keys (foldl record m cs) <-> key ∈ JsMap.keys m \/ key ∈ cs.*1.
Proof.
  induction cs as [|c cs IH]; intros m.
  - cbn. rewrite elem_of_nil. tauto.
  - cbn [foldl]. rewrite IH, fmap_cons, elem_of_cons.
    unfold record. rewrite JsMapFacts.keys_set.
    case_bool_decide as Hin.
    + split; [tauto|]. intros [?|[->|?]]; auto.
    + rewrite elem_of_app, list_elem_of_singleton. tauto.
Qed.

(** Every contribution is a strictly positive amount. *)
Lemma logContribs_positive idx log cs :
  logContribs idx log = Ok cs -> Forall (fun c => Num.positive c.2) cs.
Proof.
  unfold logContribs.
  destruct (topics log !! 0%nat) as [topic0|]; [|discriminate].
  destruct (negb (String.eqb (toLowerCase topic0) TRANSFER_TOPIC));
    [intros [= <-]; constructor|].
  destruct (negb (truthy (topics log !! 1%nat))
            || negb (truthy (topics log !! 2%nat))); [intros [= <-]; constructor|].
  destruct (hexToBigInt (data log)) as [valueBig|e]; [|discriminate].
  cbn [bind]. intros [= <-]. unfold callContribs.
  destruct (NumFacts.weiToMon_guard valueBig) as [-> | Hpos]; [constructor|].
  destruct (Num.leb _ Num.zero); [constructor|].
  apply Forall_fmap, Forall_forall. intros call _. exact Hpos.
Qed.

Lemma allContribs_positive idx logs : forall cs,
  allContribs idx logs = Ok cs -> Forall (fun c => Num.positive c.2) cs.
Proof.
  induction logs as [|log logs IH]; intros cs; cbn [allContribs].
  - intros [= <-]. constructor.
  - destruct (logContribs idx log) as [c|e] eqn:Hc; [|discriminate].
    destruct (allContribs idx logs) as [cs'|e]; [|discriminate].
    cbn [bind]. intros [= <-]. apply Forall_app. split.
    + now apply (logContribs_positive idx log).
    + now apply IH.
Qed.

Lemma record_positive m c :
  Forall (fun e => Num.positive e.2) m -> Num.positive c.2 ->
  Forall (fun e => Num.positive e.2) (record m c).
Proof.
  intros Hm Hc. unfold record. apply JsMapFacts.Forall_set; [exact Hm|].
  destruct (JsMap.get c.1 m) as [prev|] eqn:Hget; cbn [Num.orZero].
  - pose proof (JsMapFacts.Forall_get _ _ _ _ Hm Hget) as Hprev.
    rewrite NumFacts.positive_not_falsy by exact Hprev.
    now apply NumFacts.add_positive.
  - now rewrite NumFacts.add_zero_positive.
Qed.

Lemma foldl_record_positive cs : forall m,
  Forall (fun e => Num.positive e.2) m ->
  Forall (fun c => Num.positive c.2) cs ->
  Forall (fun e => Num.positive e.2) (foldl record m cs).
Proof.
  induction cs as [|c cs IH]; intros m Hm Hcs; [exact Hm|].
  apply Forall_cons in Hcs as [Hc Hcs]. cbn [foldl].
  apply IH; [now apply record_positive | exact Hcs].
Qed.

End Contributions.

(** ** Flow aggregator: positive volumes *)

Lemma volumeMap_positive (idx : gmap string string) (logs : list Log)
    (volumeMap : JsMap.t Num.number) :
  processLogs idx logs JsMap.empty = Ok volumeMap ->
  Forall (fun e => Num.positive e.2) volumeMap.
Proof.
  rewrite processLogs_contribs.
  destruct (allContribs idx logs) as [cs|e] eqn:Hcs; [|discriminate].
  cbn [bind]. intros [= <-]. apply foldl_record_positive; [constructor|].
  now apply (allContribs_positive idx logs).
Qed.

(** C3. Whatever the registry and the log records, every edge of a
    report has a volume strictly above zero: an edge whose accumulated
    volume is zero, negative or not a number never appears in the flows
    list. *)
Theorem flows_strictly_positive (protocols : ProtocolsFile) (logs : list Log)
    (now : string) (report : FlowFile) :
  buildFlowsForPeriod protocols logs now = Ok report ->
  Forall (fun f => Num.ltb Num.zero (volume f) = true) (flows report).
Proof.
  unfold buildFlowsForPeriod.
  destruct (processLogs _ logs JsMap.empty) as [volumeMap|e] eqn:Hmap;
    [|discriminate].
  cbn [bind]. intros [= <-]. cbn [flows].
  apply volumeMap_positive in Hmap. unfold JsMap.entries.
  apply Forall_fmap. eapply Forall_impl; [exact Hmap|].
  intros [k v] Hv. now apply NumFacts.positive_ltb.
Qed.

Lemma flows_strictly_positive_witness :
  let logs := [Samples.transfer Samples.wallet1 Samples.alphaContract
                 Samples.oneToken;
               Samples.transfer Samples.wallet1 Samples.alphaContract "0x";
               Samples.transfer Samples.alphaContract Samples.wallet2 "-5"] in
  exists report,
    buildFlowsForPeriod Samples.alphaOnly logs "2024-01-01T00:00:00.000Z"
    = Ok report
    /\ Forall (fun f => Num.ltb Num.zero (volume f) = true) (flows report).
Proof.
  intros logs. eexists. split; [vm_compute; reflexivity|].
  refine (flows_strictly_positive Samples.alphaOnly logs
            "2024-01-01T00:00:00.000Z" _ _).
  vm_compute. reflexivity.
Defined.

(** ** Flow aggregator: order of the records *)

Section Order.

Implicit Types (idx : gmap string string) (logs : list Log).

Lemma allContribs_cons idx log rest c1 :
  allContribs idx (log :: rest) = Ok c1
  <-> exists c cs, logContribs idx log = Ok c
                   /\ allContribs idx rest = Ok cs /\ c1 = c ++ cs.
Proof.
  cbn [allContribs].
  destruct (logContribs idx log) as [c|e]; cbn [bind].
  - destruct (allContribs idx rest) as [cs|e]; cbn [bind].
    + split.
      * intros [= <-]. now exists c, cs.
      * intros (c' & cs' & [= <-] & [= <-] & ->). reflexivity.
    + split; [discriminate|]. now intros (c' & cs' & _ & ? & _).
  - split; [discriminate|]. now intros (c' & cs' & ? & _).
Qed.




End Order.





(** ** Flow aggregator: one edge per pair *)

Section Keys.

Implicit Types (idx : gmap string string) (s t cur rest : string).

Lemma append_cons c s rest : String c s +:+ rest = String c (s +:+ rest).
Proof. reflexivity. Qed.

Lemma append_empty_r s : s +:+ "" = s.
Proof.
  induction s as [|c s IH]; [reflexivity|]. now rewrite append_cons, IH.
Qed.

Lemma revString_revString s : forall a b,
  revString (revString s a) b = revString a (s +:+ b).
Proof.
  induction s as [|c s IH]; intros a b; [reflexivity|].
  rewrite append_cons. cbn [revString]. now rewrite IH.
Qed.

Lemma splitFrom_noBar s : forall cur rest,
  noBar s = true ->
  splitFrom "|||" 0 cur (s +:+ rest) = splitFrom "|||" 0 (revString s cur) rest.
Proof.
  induction s as [|c s IH]; intros cur rest Hs; [reflexivity|].
  apply andb_prop in Hs as [Hc Hs]. apply negb_true_iff in Hc.
  rewrite append_cons. cbn [splitFrom startsWith revString].
  rewrite Ascii.eqb_sym, Hc. now apply IH.
Qed.

Lemma split_flowKey s t :
  noBar s = true -> noBar t = true -> split "|||" (flowKey s t) = [s; t].
Proof.
  intros Hs Ht. unfold split, flowKey.
  rewrite splitFrom_noBar by exact Hs.
  change ("|||" +:+ t) with (String "|" (String "|" (String "|" t))).
  cbn [splitFrom startsWith Ascii.eqb Bool.eqb String.length Nat.sub].
  rewrite revString_revString. cbn [revString].
  rewrite <- (append_empty_r t) at 1.
  rewrite splitFrom_noBar by exact Ht. cbn [splitFrom].
  rewrite revString_revString. cbn [revString].
  now rewrite !append_empty_r.
Qed.

Lemma pairOfKey_good key1 key2 :
  goodKey key1 -> goodKey key2 -> pairOfKey key1 = pairOfKey key2 ->
  key1 = key2.
Proof.
  intros (s1 & t1 & -> & Hs1 & Ht1) (s2 & t2 & -> & Hs2 & Ht2).
  unfold pairOfKey. rewrite !split_flowKey by assumption.
  cbn. now intros [= -> ->].
Qed.

Lemma flowCalls_noBar fromProt toProt :
  noBarValue fromProt -> noBarValue toProt ->
  Forall (fun call => noBar call.1 = true /\ noBar call.2 = true)
         (flowCalls fromProt toProt).
Proof.
  intros Hf Ht.
  assert (noBar (str fromProt) = true) by (now destruct fromProt).
  assert (noBar (str toProt) = true) by (now destruct toProt).
  unfold flowCalls.
  repeat match goal with |- context [if ?b then _ else _] => destruct b end;
    cbn [app]; repeat constructor; assumption.
Qed.

Lemma logContribs_goodKey idx log cs :
  (forall addr, noBarValue (idx !! addr)) ->
  logContribs idx log = Ok cs -> Forall (fun c => goodKey c.1) cs.
Proof.
  intros Hidx. unfold logContribs.
  destruct (topics log !! 0%nat) as [topic0|]; [|discriminate].
  destruct (negb (String.eqb (toLowerCase topic0) TRANSFER_TOPIC));
    [intros [= <-]; constructor|].
  destruct (negb (truthy (topics log !! 1%nat))
            || negb (truthy (topics log !! 2%nat))); [intros [= <-]; constructor|].
  destruct (hexToBigInt (data log)) as [valueBig|e]; [|discriminate].
  cbn [bind]. intros [= <-]. unfold callContribs.
  destruct (Num.leb _ Num.zero); [constructor|].
  apply Forall_fmap. eapply Forall_impl; [apply flowCalls_noBar; apply Hidx|].
  intros [s t] [Hs Ht]. now exists s, t.
Qed.

Lemma allContribs_goodKey idx logs :
  (forall addr, noBarValue (idx !! addr)) ->
  forall cs, allContribs idx logs = Ok cs -> Forall (fun c => goodKey c.1) cs.
Proof.
  intros Hidx. induction logs as [|log logs IH]; intros cs.
  - intros [= <-]. constructor.
  - intros (c & cs' & Hc & Hcs & ->)%allContribs_cons.
    apply Forall_app. split; [now apply (logContribs_goodKey idx log) | auto].
Qed.

Lemma contractToProtocol_noBar (protocols : ProtocolsFile) :
  Forall (fun p => noBar p.1 = true) protocols ->
  forall addr, noBarValue (contractToProtocol protocols !! addr).
Proof.
  intros Hnames addr.
  destruct (contractToProtocol protocols !! addr) as [name|] eqn:Hget;
    [|exact I].
  apply contractToProtocol_Some in Hget as [cfg Hin].
  rewrite Forall_forall in Hnames. exact (Hnames (name, cfg) Hin).
Qed.

End Keys.

(** C2 (counterexample). With a protocol named ["A"] and a protocol
    named ["A|||B"], a transfer into each gives two entries of the
    volume map, with keys ["Wallets|||A"] and ["Wallets|||A|||B"];
    splitting both keys at the separator gives the pair
    [("Wallets", "A")] twice. *)
Lemma flows_duplicate_pair_counterexample :
  let protocols := [("A", Samples.config [Samples.alphaContract]);
                    ("A|||B", Samples.config [Samples.betaContract])] in
  let logs := [Samples.transfer Samples.wallet1 Samples.alphaContract
                 Samples.oneToken;
               Samples.transfer Samples.wallet1 Samples.betaContract
                 Samples.oneToken] in
  let edge := {| source := Some "Wallets"; target := Some "A";
                 volume := Samples.one |} in
  processLogs (contractToProtocol protocols) logs JsMap.empty
  = Ok [("Wallets|||A", Samples.one); ("Wallets|||A|||B", Samples.one)]
  /\ buildFlowsForPeriod protocols logs "2024-01-01T00:00:00.000Z"
     = Ok {| period := "raw"; lastUpdated := "2024-01-01T00:00:00.000Z";
             totalVolume := Num.ofBigInt 2; flows := [edge; edge] |}
  /\ ~ NoDup ((fun f => (source f, target f)) <$> [edge; edge]).
Proof.
  intros protocols logs edge. split; [vm_compute; reflexivity|].
  split; [vm_compute; reflexivity|].
  intros [Hnotin _]%NoDup_cons. apply Hnotin. apply list_elem_of_here.
Qed.

(** C2 (amended). When no protocol name contains the character [|],
    a report has exactly one edge for every ordered (source, target)
    pair into which an amount was classified, and no other edge: the
    pairs of the flows list are pairwise distinct, every edge is the
    edge of a pair that received an amount, every pair that received an
    amount has its edge, and the volume of that edge is the running sum
    [(prev || 0) + vol], in the order of the records, of all the
    amounts that were classified into the pair. Repeated
    classifications accumulate into the one edge. *)
Theorem flows_one_edge_per_pair (protocols : ProtocolsFile) (logs : list Log)
    (now : string) (report : FlowFile) :
  Forall (fun p => noBar p.1 = true) protocols ->
  buildFlowsForPeriod protocols logs now = Ok report ->
  NoDup ((fun f => (source f, target f)) <$> flows report)
  /\ exists cs,
       allContribs (contractToProtocol protocols) logs = Ok cs
       /\ (forall f, f ∈ flows report ->
             exists s t, source f = Some s /\ target f = Some t
                         /\ accumulate None (amounts (flowKey s t) cs)
                            = Some (volume f))
       /\ (forall key vol, (key, vol) ∈ cs ->
             exists s t f,
               key = flowKey s t /\ f ∈ flows report
               /\ source f = Some s /\ target f = Some t
               /\ accumulate None (amounts key cs) = Some (volume f)).
Proof.
  intros Hnames. unfold buildFlowsForPeriod. rewrite processLogs_contribs.
  destruct (allContribs _ logs) as [cs|e] eqn:Hcs; [|discriminate].
  cbn [bind]. intros [= <-]. cbn [flows]. unfold JsMap.entries.
  set (m := foldl record JsMap.empty cs).
  assert (NoDup (JsMap.keys m)) as Hnd
      by (apply NoDup_keys_foldl_record; constructor).
  assert (forall key, key ∈ JsMap.keys m -> goodKey key) as Hgood.
  { intros key [Hin|Hin]%keys_foldl_record; [now apply elem_of_nil in Hin|].
    apply list_elem_of_fmap in Hin as [c [-> Hin]].
    pose proof (allContribs_goodKey _ logs (contractToProtocol_noBar _ Hnames)
                  cs Hcs) as Hall.
    rewrite Forall_forall in Hall. now apply Hall. }
  split.
  - rewrite <- list_fmap_compose.
    replace ((fun f => (source f, target f)) ∘ flowOfEntry <$> m)
      with (pairOfKey <$> JsMap.keys m)
      by (unfold JsMap.keys; now rewrite <- list_fmap_compose).
    apply NoDup_fmap_2_strong; [|exact Hnd].
    intros k1 k2 H1 H2. apply pairOfKey_good; auto.
  - exists cs. split; [reflexivity|]. split.
    + intros f [[key v] [-> Hin]]%list_elem_of_fmap.
      destruct (Hgood key (JsMapFacts.elem_keys _ _ _ Hin))
        as (s & t & -> & Hs & Ht).
      exists s, t. unfold flowOfEntry. cbn [fst snd source target volume].
      rewrite split_flowKey by assumption. repeat split.
      rewrite <- (JsMapFacts.elem_get _ _ _ Hnd Hin). subst m.
      now rewrite get_foldl_record.
    + intros key vol Hin.
      assert (key ∈ JsMap.keys m) as Hkey.
      { subst m. apply keys_foldl_record. right.
        exact (list_elem_of_fmap_2 fst cs (key, vol) Hin). }
      destruct (JsMapFacts.keys_elem _ _ Hkey) as [v Hv].
      destruct (Hgood key Hkey) as (s & t & -> & Hs & Ht).
      exists s, t, (flowOfEntry (flowKey s t, v)).
      split; [reflexivity|]. split; [now apply list_elem_of_fmap_2|].
      unfold flowOfEntry. cbn [fst snd source target volume].
      rewrite split_flowKey by assumption. repeat split.
      rewrite <- (JsMapFacts.elem_get _ _ _ Hnd Hv). subst m.
      now rewrite get_foldl_record.
Qed.

Lemma flows_one_edge_per_pair_witness :
  let logs := [Samples.transfer Samples.wallet1 Samples.alphaContract
                 "2000000000000000000";
               Samples.transfer Samples.wallet1 Samples.alphaContract
                 "3000000000000000000"] in
  Forall (fun p => noBar p.1 = true) Samples.alphaOnly
  /\ exists report,
       buildFlowsForPeriod Samples.alphaOnly logs "2024-01-01T00:00:00.000Z"
       = Ok report
       /\ NoDup ((fun f => (source f, target f)) <$> flows report)
       /\ exists f,
            f ∈ flows report
            /\ source f = Some "Wallets" /\ target f = Some "Alpha"
            /\ volume f = Num.ofBigInt 5.
Proof.
  intros logs.
  assert (Forall (fun p => noBar p.1 = true) Samples.alphaOnly) as Hnames
      by (repeat constructor).
  split; [exact Hnames|]. eexists. split; [vm_compute; reflexivity|].
  destruct (flows_one_edge_per_pair Samples.alphaOnly logs
              "2024-01-01T00:00:00.000Z" _ Hnames
              ltac:(vm_compute; reflexivity))
    as (Hnd & cs & Hcs & _ & Hall).
  split; [exact Hnd|].
  vm_compute in Hcs. injection Hcs as <-.
  destruct (Hall _ _ (list_elem_of_here _ _))
    as (s & t & f & _ & Hin & _ & _ & Hvol).
  exists f. split; [exact Hin|].
  vm_compute in Hvol. injection Hvol as Hvol.
  apply list_elem_of_singleton in Hin. subst f.
  repeat split.
Defined.

(** Two transfers of 2 and 3 tokens from a wallet to the same protocol
    give one edge of volume 5. *)
Example flows_accumulate_two_transfers :
  buildFlowsForPeriod Samples.alphaOnly
    [Samples.transfer Samples.wallet1 Samples.alphaContract
       "2000000000000000000";
     Samples.transfer Samples.wallet2 Samples.alphaContract
       "3000000000000000000"]
    "2024-01-01T00:00:00.000Z"
  = Ok {| period := "raw"; lastUpdated := "2024-01-01T00:00:00.000Z";
          totalVolume := Num.ofBigInt 5;
          flows := [{| source := Some "Wallets"; target := Some "Alpha";
                       volume := Num.ofBigInt 5 |}] |}.
Proof. vm_compute. reflexivity. Qed.

(** ** Flow aggregator: scenarios *)

(** One transfer of one token from a wallet to a contract of Alpha. *)
Example scenario_single_deposit :
  buildFlowsForPeriod Samples.alphaOnly
    [Samples.transfer Samples.wallet1 Samples.alphaContract Samples.oneToken]
    "2024-01-01T00:00:00.000Z"
  = Ok {| period := "raw"; lastUpdated := "2024-01-01T00:00:00.000Z";
          totalVolume := Num.ofBigInt 1;
          flows := [{| source := Some "Wallets"; target := Some "Alpha";
                       volume := Num.ofBigInt 1 |}] |}.
Proof. vm_compute. reflexivity. Qed.

(** A transfer between two wallets, and a transfer from a contract of
    Alpha to itself: no edge, and a total of [0]. *)
Example scenario_no_edge :
  buildFlowsForPeriod Samples.alphaOnly
    [Samples.transfer Samples.wallet1 Samples.wallet2 Samples.oneToken;
     Samples.transfer Samples.alphaContract Samples.alphaContract
       Samples.oneToken]
    "2024-01-01T00:00:00.000Z"
  = Ok {| period := "raw"; lastUpdated := "2024-01-01T00:00:00.000Z";
          totalVolume := Num.zero; flows := [] |}.
Proof. vm_compute. reflexivity. Qed.

(** A withdrawal and a transfer between two protocols, in the order in
    which their edges are first met. *)
Example scenario_withdraw_and_cross :
  buildFlowsForPeriod
    [("Alpha", Samples.config [Samples.alphaContract]);
     ("Beta", Samples.config [Samples.betaContract])]
    [Samples.transfer Samples.betaContract Samples.wallet2 Samples.oneToken;
     Samples.transfer Samples.alphaContract Samples.betaContract
       Samples.oneToken]
    "2024-01-01T00:00:00.000Z"
  = Ok {| period := "raw"; lastUpdated := "2024-01-01T00:00:00.000Z";
          totalVolume := Num.ofBigInt 2;
          flows := [{| source := Some "Beta"; target := Some "Wallets";
                       volume := Num.ofBigInt 1 |};
                    {| source := Some "Alpha"; target := Some "Beta";
                       volume := Num.ofBigInt 1 |}] |}.
Proof. vm_compute. reflexivity. Qed.

(** * Further properties *)

(** ** More on binary64 arithmetic: a non-zero amount stays non-zero

    The number of binary digits of a mantissa plus its exponent, the
    magnitude, bounds a value from below; rounding never lowers it, and
    a quotient whose magnitude stays in range has a non-zero mantissa. *)

Module NumBounds.

Import Num.

Lemma digits2_pos_size p : digits2_pos p = Pos.size p.
Proof. induction p as [p IH|p IH|]; simpl; now rewrite ?IH. Qed.

Lemma Zdigits2_lower p : 2 ^ (Zdigits2 (Z.pos p) - 1) <= Z.pos p.
Proof.
  cbn [Zdigits2]. rewrite digits2_pos_size.
  pose proof (Pos.size_le p) as H.
  apply Pos2Z.pos_le_pos in H. rewrite Pos2Z.inj_pow in H.
  change (Z.pos p~0) with (2 * Z.pos p) in H.
  replace (Z.pos (Pos.size p)) with (Z.succ (Z.pos (Pos.size p) - 1)) in H
    by lia.
  rewrite Z.pow_succ_r in H by lia. lia.
Qed.

Lemma Zdigits2_upper p : Z.pos p < 2 ^ Zdigits2 (Z.pos p).
Proof.
  cbn [Zdigits2]. rewrite digits2_pos_size.
  pose proof (Pos.size_gt p) as H.
  apply Pos2Z.pos_lt_pos in H. now rewrite Pos2Z.inj_pow in H.
Qed.

Lemma Zdigits2_mono a b : 0 <= a <= b -> Zdigits2 a <= Zdigits2 b.
Proof.
  intros [Ha Hab]. destruct a as [|a|a]; [|clear Ha|lia].
  - destruct b; simpl; lia.
  - destruct b as [|b|b]; try lia.
    destruct (Z.le_gt_cases (Zdigits2 (Z.pos a)) (Zdigits2 (Z.pos b)))
      as [H|H]; [exact H|exfalso].
    pose proof (Zdigits2_lower a) as Hl. pose proof (Zdigits2_upper b) as Hu.
    assert (2 ^ Zdigits2 (Z.pos b) <= 2 ^ (Zdigits2 (Z.pos a) - 1))
      by (apply Z.pow_le_mono_r; lia).
    lia.
Qed.

Lemma digits2_pos_iter_xO d : forall m,
  Z.pos (digits2_pos (Pos.iter xO m d)) = Z.pos (digits2_pos m) + Z.pos d.
Proof.
  induction d as [|d IH] using Pos.peano_ind; intros m.
  - cbn. lia.
  - rewrite Pos.iter_succ. cbn [digits2_pos]. rewrite Pos2Z.inj_succ, IH. lia.
Qed.

(** In the normal range a shift to the canonical exponent keeps the
    mantissa positive and the magnitude unchanged, and the new exponent
    is at least the magnitude less the precision. *)
Lemma shr_fexp_magnitude m e l :
  0 < m -> emin <= Zdigits2 m + e - prec ->
  0 < shr_m (shr_fexp prec emax m e l).1
  /\ Zdigits2 (shr_m (shr_fexp prec emax m e l).1)
     + (shr_fexp prec emax m e l).2
     = Zdigits2 m + e
  /\ Zdigits2 m + e - prec <= (shr_fexp prec emax m e l).2.
Proof.
  intros Hm Hrange.
  destruct (NumFacts.shr_fexp_spec m e l ltac:(lia)) as (Hnn & _ & _).
  revert Hnn. unfold shr_fexp, shr.
  assert (fexp prec emax (Zdigits2 m + e) = Zdigits2 m + e - prec) as ->
      by (unfold fexp; fold emin; lia).
  destruct (Zdigits2 m + e - prec - e) as [|p|p] eqn:Hn;
    cbn [fst snd]; rewrite ?NumFacts.shr_m_of_loc; intros Hnn;
    try (repeat split; lia).
  assert (Zdigits2 (shr_m (iter_pos shr_1 p (shr_record_of_loc m l))) = prec)
    as Hd.
  { rewrite NumFacts.iter_shr_1_digits, NumFacts.shr_m_of_loc.
    unfold prec in *. lia. }
  split; [|split].
  - apply NumFacts.Zdigits2_pos; [exact Hnn|]. rewrite Hd. unfold prec. lia.
  - rewrite Hd. lia.
  - lia.
Qed.

Lemma binary_round_aux_magnitude sx mx ex lx s m e :
  0 < mx -> emin <= Zdigits2 mx + ex - prec ->
  binary_round_aux prec emax sx mx ex lx = S754_finite s m e ->
  Zdigits2 mx + ex <= Zdigits2 (Z.pos m) + e
  /\ Zdigits2 mx + ex - prec <= e.
Proof.
  intros Hm Hrange. unfold binary_round_aux.
  destruct (shr_fexp_magnitude mx ex lx Hm Hrange) as (Hp1 & Hd1 & He1).
  destruct (shr_fexp prec emax mx ex lx) as [r1 e1]; cbn [fst snd] in *.
  pose proof (NumFacts.round_nearest_even_ge (shr_m r1) (loc_of_shr_record r1))
    as Hr.
  set (m1 := round_nearest_even (shr_m r1) (loc_of_shr_record r1)) in *.
  pose proof (Zdigits2_mono (shr_m r1) m1 ltac:(lia)) as Hmono.
  destruct (shr_fexp_magnitude m1 e1 loc_Exact ltac:(lia) ltac:(lia))
    as (Hp2 & Hd2 & He2).
  destruct (shr_fexp prec emax m1 e1 loc_Exact) as [r2 e2];
    cbn [fst snd] in *.
  destruct (shr_m r2) as [|m2|m2]; try discriminate.
  destruct (e2 <=? emax - prec); [|discriminate].
  intros [= _ <- <-]. lia.
Qed.

(** A positive mantissa with an exponent of at least [emin] does not
    round to zero, whatever the rounding information that comes with
    it. *)
Lemma binary_round_aux_nonzero_loc sx mx ex lx :
  0 < mx -> emin <= ex ->
  forall s, binary_round_aux prec emax sx mx ex lx <> S754_zero s.
Proof.
  intros Hm He s. unfold binary_round_aux.
  destruct (NumFacts.shr_fexp_spec mx ex lx ltac:(lia)) as (_ & He1 & H1).
  specialize (H1 Hm He).
  destruct (shr_fexp prec emax mx ex lx) as [r1 e1]; cbn [fst snd] in *.
  pose proof (NumFacts.round_nearest_even_ge (shr_m r1) (loc_of_shr_record r1))
    as Hr.
  destruct (NumFacts.shr_fexp_spec
              (round_nearest_even (shr_m r1) (loc_of_shr_record r1))
              e1 loc_Exact ltac:(lia)) as (_ & _ & H2).
  specialize (H2 ltac:(lia) He1).
  destruct (shr_fexp prec emax _ e1 loc_Exact) as [r2 e2]; cbn [fst snd] in *.
  destruct (shr_m r2) as [|m|m]; [lia| |lia].
  destruct (e2 <=? emax - prec); discriminate.
Qed.

(** [Number(b)] for a positive bigint: at least one in magnitude, with
    an exponent of at least [1 - prec]. *)
Lemma ofBigInt_magnitude b s m e :
  0 < b -> ofBigInt b = S754_finite s m e ->
  1 <= Zdigits2 (Z.pos m) + e /\ 1 - prec <= e.
Proof.
  intros Hb. destruct b as [|p|p]; try lia.
  unfold ofBigInt. cbn [binary_normalize]. unfold binary_round.
  assert (exists mz ez,
            shl_align p 0 (fexp prec emax (Z.pos (digits2_pos p) + 0))
            = (mz, ez)
            /\ Z.pos (digits2_pos mz) + ez = Z.pos (digits2_pos p))
    as (mz & ez & -> & Hmag).
  { unfold shl_align.
    destruct (fexp prec emax (Z.pos (digits2_pos p) + 0) - 0) as [|d|d] eqn:Hd;
      eexists _, _; (split; [reflexivity|]); try lia.
    rewrite digits2_pos_iter_xO. lia. }
  intros Hround.
  apply binary_round_aux_magnitude in Hround; cbn [Zdigits2] in *.
  - unfold prec in *. lia.
  - lia.
  - unfold emin, SpecFloat.emin, prec, emax. lia.
Qed.

(** *** Division by a power of ten *)

Lemma pow10_normal d :
  (d <= maxDecimals)%N -> normalPositive (ofBigInt (10 ^ Z.of_N d)) = true.
Proof.
  intros Hd.
  assert (forallb (fun n => normalPositive (ofBigInt (10 ^ Z.of_nat n)))
                  (seq 0 309) = true) as Hall by (vm_compute; reflexivity).
  rewrite forallb_forall in Hall.
  specialize (Hall (N.to_nat d)). rewrite N_nat_Z in Hall.
  apply Hall, in_seq. unfold maxDecimals in Hd. lia.
Qed.

(** A finite value of magnitude at least one divided by a normal
    positive value is strictly positive: the quotient does not
    underflow to zero. *)
Lemma div_positive m1 e1 y :
  1 <= Zdigits2 (Z.pos m1) + e1 -> 1 - prec <= e1 ->
  normalPositive y = true ->
  positive (div (S754_finite false m1 e1) y).
Proof.
  intros Hmag He1 Hy.
  destruct y as [sy|sy| |[] m2 e2]; try discriminate.
  cbn [normalPositive] in Hy. apply andb_prop in Hy as [Hd2 He2].
  apply Z.eqb_eq in Hd2. apply Z.leb_le in He2.
  pose proof (Zdigits2_lower m1) as Hl1. pose proof (Zdigits2_upper m2) as Hu2.
  cbn [Zdigits2] in *. rewrite Hd2 in Hu2.
  cbn [div SFdiv xorb]. unfold SFdiv_core_binary. cbn [Zdigits2].
  rewrite Hd2.
  set (d1 := Z.pos (digits2_pos m1)) in *.
  set (e' := Z.min (fexp prec emax (d1 + e1 - (prec + e2))) (e1 - e2)).
  assert (emin <= e') as Hemin.
  { subst e'. unfold fexp. fold emin.
    unfold emin, SpecFloat.emin, prec, emax in *. lia. }
  assert (0 <= e1 - e2 - e' /\ prec + 1 <= d1 + (e1 - e2 - e')) as [Hs Hdig].
  { subst e'. unfold fexp. fold emin.
    unfold emin, SpecFloat.emin, prec, emax in *. lia. }
  set (s := e1 - e2 - e') in *.
  match goal with
  | |- context [Z.div_eucl ?a (Z.pos m2)] =>
      assert (a = Z.pos m1 * 2 ^ s) as ->
  end.
  { destruct s as [|p|p] eqn:Es; try lia.
    now rewrite Z.shiftl_mul_pow2. }
  assert (Z.pos m2 <= Z.pos m1 * 2 ^ s) as Hge.
  { assert (2 ^ prec <= 2 ^ (d1 - 1 + s)) as Hpow
        by (apply Z.pow_le_mono_r; lia).
    rewrite Z.pow_add_r in Hpow by lia.
    assert (2 ^ (d1 - 1) * 2 ^ s <= Z.pos m1 * 2 ^ s)
      by (apply Z.mul_le_mono_nonneg_r; [apply Z.pow_nonneg|]; lia).
    lia. }
  destruct (Z.div_eucl (Z.pos m1 * 2 ^ s) (Z.pos m2)) as [q r] eqn:E.
  assert (0 < q) as Hq.
  { assert (q = Z.pos m1 * 2 ^ s / Z.pos m2) as ->
        by (unfold Z.div; now rewrite E).
    apply Z.div_str_pos. lia. }
  apply NumFacts.weak_false_nonzero_positive.
  - apply NumFacts.binary_round_aux_weak. lia.
  - now apply binary_round_aux_nonzero_loc.
Qed.

Lemma div_ofBigInt_positive b d :
  0 < b -> (d <= maxDecimals)%N ->
  positive (div (ofBigInt b) (ofBigInt (10 ^ Z.of_N d))).
Proof.
  intros Hb Hd. pose proof (pow10_normal d Hd) as Hy.
  pose proof (NumFacts.ofBigInt_positive b Hb) as Hx.
  destruct (ofBigInt b) as [sx|[]| |[] m1 e1] eqn:Hnum; try contradiction.
  - destruct (ofBigInt (10 ^ Z.of_N d)) as [sy|sy| |[] m2 e2];
      try discriminate. exact I.
  - destruct (ofBigInt_magnitude b _ _ _ Hb Hnum) as [Hmag He].
    now apply div_positive.
Qed.

Lemma add_weak_positive x y :
  weak false x -> positive y -> positive (add x y).
Proof.
  intros Hx Hy.
  destruct x as [sx|[]| |[] mx ex]; cbn [weak] in Hx;
    try contradiction; try discriminate; try (destruct Hx; discriminate).
  - destruct y as [sy|[]| |[] my ey]; try contradiction; exact Hy.
  - destruct y as [sy|[]| |[] my ey]; try contradiction; exact I.
  - apply NumFacts.add_positive; [apply Hx | exact Hy].
Qed.

Lemma add_positive_weak x y :
  positive x -> weak false y -> positive (add x y).
Proof.
  intros Hx Hy.
  destruct y as [sy|[]| |[] my ey]; cbn [weak] in Hy;
    try contradiction; try discriminate; try (destruct Hy; discriminate).
  - destruct x as [sx|[]| |[] mx ex]; try contradiction; exact Hx.
  - destruct x as [sx|[]| |[] mx ex]; try contradiction; exact I.
  - apply NumFacts.add_positive; [exact Hx | apply Hy].
Qed.

Lemma weiToMon_positive value d :
  0 < value -> (d <= maxDecimals)%N -> positive (weiToMon value d).
Proof.
  intros Hv Hd. unfold weiToMon.
  destruct (Z.eqb_spec value 0) as [?|_]; [lia|].
  assert (0 < 10 ^ Z.of_N d) as Hbase by (apply Z.pow_pos_nonneg; lia).
  pose proof (Z.quot_rem' value (10 ^ Z.of_N d)) as Hqr.
  pose proof (Z.quot_pos value (10 ^ Z.of_N d) ltac:(lia) Hbase) as Hq.
  pose proof (Z.rem_nonneg value (10 ^ Z.of_N d) ltac:(lia) ltac:(lia)) as Hr.
  destruct (Z.eq_dec (Z.rem value (10 ^ Z.of_N d)) 0) as [Hz|Hnz].
  - apply add_positive_weak.
    + apply NumFacts.ofBigInt_positive. rewrite Hz in Hqr. nia.
    + apply NumFacts.div_weak.
      * now apply NumFacts.ofBigInt_nonneg.
      * now apply NumFacts.pow10_finite.
  - apply add_weak_positive.
    + now apply NumFacts.ofBigInt_nonneg.
    + apply div_ofBigInt_positive; [lia | exact Hd].
Qed.

(** A value that is not zero converts to a number that is not zero. *)
Lemma ofBigInt_nonzero b : b <> 0 -> forall s, ofBigInt b <> S754_zero s.
Proof.
  intros Hb s. unfold ofBigInt. destruct b as [|p|p]; [contradiction| |];
    cbn [binary_normalize]; apply NumFacts.binary_round_nonzero,
      NumFacts.emin_nonpos.
Qed.

Lemma ofBigInt_pow10_class d :
  match ofBigInt (10 ^ Z.of_N d) with
  | S754_finite false _ _ | S754_infinity false => True
  | _ => False
  end.
Proof.
  assert (0 < 10 ^ Z.of_N d) as Hbase by (apply Z.pow_pos_nonneg; lia).
  pose proof (NumFacts.ofBigInt_positive _ Hbase) as H.
  destruct (ofBigInt (10 ^ Z.of_N d)) as [sy|[]| |[] m e]; tauto.
Qed.

End NumBounds.

(** ** Amount converter: further properties *)

Section AmountConverter.

Implicit Types (s r : string) (n z : Z).

Lemma digitValue_nonneg c d : digitValue c = Some d -> 0 <= d.
Proof.
  unfold digitValue.
  repeat match goal with
         | |- context [(?a <=? ?b) && (?c <=? ?d)] =>
             destruct (Z.leb_spec a b); destruct (Z.leb_spec c d); cbn [andb]
         end; intros [= <-]; lia.
Qed.

Lemma parseDigits_nonneg radix s : forall acc z,
  0 <= radix -> 0 <= acc -> parseDigits radix s acc = Some z -> 0 <= z.
Proof.
  induction s as [|c s IH]; intros acc z Hradix Hacc; cbn [parseDigits].
  - now intros [= <-].
  - destruct (digitValue c) as [d|] eqn:Hd; [|discriminate].
    apply digitValue_nonneg in Hd.
    destruct (d <? radix); [|discriminate].
    apply IH; [exact Hradix | nia].
Qed.

Lemma parseInteger_nonneg radix s z :
  0 <= radix -> parseInteger radix s = Some z -> 0 <= z.
Proof.
  intros Hradix. destruct s as [|c s]; [discriminate|].
  cbn [parseInteger]. now apply parseDigits_nonneg.
Qed.

Lemma trimEnd_head c s :
  trimEnd (String c s) = EmptyString
  \/ exists r, trimEnd (String c s) = String c r.
Proof.
  cbn [trimEnd]. destruct (trimEnd s) as [|c' r'].
  - destruct (isWhiteSpace c); [now left | right; now eexists].
  - right. now eexists.
Qed.

(** X2. [hexToBigInt] returns a negative bigint only for a text whose
    first character after the leading white space is a minus sign. A
    text that starts with ["0x"], as the data and the block number of
    the node do, never decodes to a negative number. *)
Theorem hexToBigInt_negative_needs_minus (hex : string) (value : Z) :
  hexToBigInt hex = Ok value ->
  (value < 0 -> startsWith "-" (trim hex) = true)
  /\ (startsWith "0x" hex = true -> 0 <= value).
Proof.
  intros Hdec.
  assert (value < 0 -> startsWith "-" (trim hex) = true) as Hneg.
  { revert Hdec. unfold hexToBigInt.
    destruct (String.eqb hex "" || String.eqb hex "0x");
      [intros [= <-]; lia|].
    unfold BigInt, StringToBigInt.
    destruct (String.eqb (trim hex) ""); [intros [= <-]; lia|].
    destruct (startsWith "0x" (trim hex) || startsWith "0X" (trim hex)).
    { destruct (parseInteger 16 _) as [v|] eqn:Hp; [|discriminate].
      intros [= <-]. apply parseInteger_nonneg in Hp; lia. }
    destruct (startsWith "0o" (trim hex) || startsWith "0O" (trim hex)).
    { destruct (parseInteger 8 _) as [v|] eqn:Hp; [|discriminate].
      intros [= <-]. apply parseInteger_nonneg in Hp; lia. }
    destruct (startsWith "0b" (trim hex) || startsWith "0B" (trim hex)).
    { destruct (parseInteger 2 _) as [v|] eqn:Hp; [|discriminate].
      intros [= <-]. apply parseInteger_nonneg in Hp; lia. }
    destruct (startsWith "-" (trim hex)); [reflexivity|].
    destruct (startsWith "+" (trim hex)).
    { destruct (parseInteger 10 _) as [v|] eqn:Hp; [|discriminate].
      intros [= <-]. apply parseInteger_nonneg in Hp; lia. }
    destruct (parseInteger 10 _) as [v|] eqn:Hp; [|discriminate].
    intros [= <-]. apply parseInteger_nonneg in Hp; lia. }
  split; [exact Hneg|].
  intros Hprefix. destruct (Z.lt_ge_cases value 0) as [Hlt|Hge]; [|exact Hge].
  specialize (Hneg Hlt). exfalso.
  destruct hex as [|c0 hex]; [discriminate|].
  cbn [startsWith] in Hprefix.
  destruct (Ascii.eqb_spec "0" c0) as [<-|]; [|discriminate].
  unfold trim in Hneg. cbn [trimStart] in Hneg.
  change (isWhiteSpace "0") with false in Hneg. cbv iota in Hneg.
  destruct (trimEnd_head "0" hex) as [E|[r E]]; rewrite E in Hneg;
    discriminate.
Qed.

Lemma hexToBigInt_negative_needs_minus_witness :
  hexToBigInt "-5" = Ok (-5) /\ startsWith "-" (trim "-5") = true.
Proof.
  split; [reflexivity|].
  apply (proj1 (hexToBigInt_negative_needs_minus "-5" (-5) eq_refl)). lia.
Defined.

Lemma parseDigits_zeros k : forall s,
  parseDigits 16 (repeatChar "0" k +:+ s) 0 = parseDigits 16 s 0.
Proof.
  induction k as [|k IH]; intros s; [reflexivity|].
  cbn [repeatChar]. rewrite append_cons. cbn [parseDigits].
  change (digitValue "0") with (Some 0). cbn. apply IH.
Qed.

Lemma allChars_app (P : ascii -> bool) s r :
  allChars P (s +:+ r) = allChars P s && allChars P r.
Proof.
  induction s as [|c s IH]; [reflexivity|].
  rewrite append_cons. cbn [allChars]. now rewrite IH, andb_assoc.
Qed.

Lemma allChars_repeatChar (P : ascii -> bool) c k :
  P c = true -> allChars P (repeatChar c k) = true.
Proof.
  intros Hc. induction k as [|k IH]; [reflexivity|].
  cbn [repeatChar allChars]. now rewrite Hc, IH.
Qed.

(** X1. The amount of a log is a 32-byte word, printed with leading
    zeros: [hexToBigInt] reads back every non-negative [n] from
    ["0x"], any number of zeros and the hexadecimal digits of [n]. *)
Theorem hexToBigInt_padded (n : Z) (zeros : nat) :
  0 <= n ->
  hexToBigInt ("0x" +:+ repeatChar "0" zeros +:+ toString16 n) = Ok n.
Proof.
  intros Hn. unfold toString16.
  destruct (Z.ltb_spec n 0) as [?|_]; [lia|].
  set (h := hexDigits _ n EmptyString).
  assert (h <> EmptyString) as Hne.
  { subst h. cbn [hexDigits]. destruct (n / 16 =? 0); [discriminate|].
    now apply hexDigits_nonempty. }
  assert (allChars notWhiteSpace h = true) as Hws
      by (now apply hexDigits_allChars).
  assert (parseDigits 16 h 0 = Some n) as Hparse
      by (subst h; rewrite hexDigits_parse; [reflexivity|];
          split; [lia | now apply toString16_fuel]).
  set (body := repeatChar "0" zeros +:+ h).
  assert (allChars notWhiteSpace body = true) as Hbody.
  { subst body. rewrite allChars_app, Hws, allChars_repeatChar; reflexivity. }
  assert (body <> EmptyString) as Hbne.
  { subst body. destruct zeros; [exact Hne | discriminate]. }
  assert (parseDigits 16 body 0 = Some n) as Hpb
      by (subst body; now rewrite parseDigits_zeros).
  destruct body as [|c s]; [congruence|].
  change ("0x" +:+ String c s) with (String "0" (String "x" (String c s))).
  unfold hexToBigInt, BigInt, StringToBigInt, trim.
  change (trimStart (String "0" (String "x" (String c s))))
    with (String "0" (String "x" (String c s))).
  rewrite trimEnd_allChars by exact Hbody.
  cbn [String.eqb Ascii.eqb Bool.eqb orb startsWith slice parseInteger].
  now rewrite Hpb.
Qed.

Lemma hexToBigInt_padded_witness :
  hexToBigInt ("0x" +:+ repeatChar "0" 49 +:+ toString16 (10 ^ 18))
  = Ok (10 ^ 18).
Proof. apply (hexToBigInt_padded (10 ^ 18) 49). lia. Defined.

Lemma hexDigit_lower d : 0 <= d < 16 -> isLowerHexDigit (hexDigit d) = true.
Proof. intros Hd. hex_cases d H; reflexivity. Qed.

Lemma hexDigit_nonzero d : 0 < d < 16 -> hexDigit d <> "0"%char.
Proof. intros Hd. hex_cases d H; try lia; discriminate. Qed.

Lemma hexDigits_lower fuel : forall n acc,
  allChars isLowerHexDigit acc = true ->
  allChars isLowerHexDigit (hexDigits fuel n acc) = true.
Proof.
  induction fuel as [|fuel IH]; intros n acc Hacc; cbn [hexDigits];
    [exact Hacc|].
  assert (allChars isLowerHexDigit (String (hexDigit (n mod 16)) acc) = true)
    as H.
  { cbn [allChars]. rewrite Hacc, hexDigit_lower; [reflexivity|].
    apply Z.mod_pos_bound. lia. }
  destruct (n / 16 =? 0); [exact H | now apply IH].
Qed.

Lemma hexDigits_leading fuel : forall n acc,
  0 < n < 16 ^ Z.of_nat fuel ->
  exists c rest, hexDigits fuel n acc = String c rest /\ c <> "0"%char.
Proof.
  induction fuel as [|fuel IH]; intros n acc Hn.
  - simpl in Hn. lia.
  - rewrite Nat2Z.inj_succ, Z.pow_succ_r in Hn by lia.
    cbn [hexDigits]. destruct (Z.eqb_spec (n / 16) 0) as [E|E].
    + eexists _, _. split; [reflexivity|].
      apply hexDigit_nonzero.
      pose proof (Z.div_mod n 16 ltac:(lia)).
      pose proof (Z.mod_pos_bound n 16 ltac:(lia)). lia.
    + apply IH. split.
      * pose proof (Z.div_pos n 16 ltac:(lia) ltac:(lia)). lia.
      * apply Z.div_lt_upper_bound; lia.
Qed.

(** X3. Whatever its arguments, [blockOffset] returns a block number in
    the form that the node accepts: ["0x0"], or ["0x"] followed by
    lower-case hexadecimal digits of which the first is not [0]. *)
Theorem blockOffset_canonical (latestBlock offset : Z) :
  blockOffset latestBlock offset = "0x0"
  \/ exists c rest,
       blockOffset latestBlock offset = "0x" +:+ String c rest
       /\ c <> "0"%char
       /\ allChars isLowerHexDigit (String c rest) = true.
Proof.
  unfold blockOffset. rewrite blockOffsetFrom_max.
  destruct (Z.eq_dec (Z.max (latestBlock - offset) 0) 0) as [->|Hne];
    [now left|right].
  set (n := Z.max (latestBlock - offset) 0) in *.
  assert (0 < n) as Hn by lia.
  unfold toString16. destruct (Z.ltb_spec n 0) as [?|_]; [lia|].
  destruct (hexDigits_leading (S (Z.to_nat (Z.log2 n))) n EmptyString)
    as (c & rest & E & Hc).
  { split; [exact Hn | apply toString16_fuel; lia]. }
  exists c, rest. rewrite E. repeat split; [exact Hc|].
  rewrite <- E. now apply hexDigits_lower.
Qed.

(** X4. An amount of [n] whole tokens, that is [n * 10^decimals], is
    converted to [Number(n)] exactly, for every integer [n] and every
    number of decimals: the fractional part adds nothing. *)
Theorem weiToMon_whole_tokens (n : Z) (decimals : N) :
  weiToMon (n * 10 ^ Z.of_N decimals) decimals = Num.ofBigInt n.
Proof.
  assert (0 < 10 ^ Z.of_N decimals) as Hbase by (apply Z.pow_pos_nonneg; lia).
  destruct (Z.eq_dec n 0) as [->|Hn]; [reflexivity|].
  unfold weiToMon. destruct (Z.eqb_spec (n * 10 ^ Z.of_N decimals) 0);
    [nia|].
  rewrite Z.quot_mul, Z.rem_mul by lia.
  pose proof (NumBounds.ofBigInt_pow10_class decimals) as Hclass.
  pose proof (NumBounds.ofBigInt_nonzero n Hn) as Hnz.
  destruct (Num.ofBigInt (10 ^ Z.of_N decimals)) as [sy|[]| |[] m e];
    try contradiction;
    destruct (Num.ofBigInt n) as [sx|sx| |sx mx ex]; try reflexivity;
    now destruct (Hnz sx).
Qed.

(** X5. For up to 308 decimals the result of [weiToMon] has the sign of
    the raw amount: it is strictly positive for every positive amount,
    however small, and at most zero for every negative amount. No
    positive amount is rounded down to zero. *)
Theorem weiToMon_sign (raw : Z) (decimals : N) :
  (decimals <= 308)%N ->
  (0 < raw -> Num.ltb Num.zero (weiToMon raw decimals) = true)
  /\ (raw < 0 -> Num.leb (weiToMon raw decimals) Num.zero = true).
Proof.
  intros Hd. split; intros Hraw.
  - now apply NumFacts.positive_ltb, NumBounds.weiToMon_positive.
  - apply NumFacts.weak_true_leb, NumFacts.weiToMon_nonpos; [lia | exact Hd].
Qed.

Lemma weiToMon_sign_witness :
  (18 <= 308)%N /\ 0 < 1
  /\ Num.ltb Num.zero (weiToMon 1 18) = true.
Proof.
  split; [lia|]. split; [lia|].
  apply (proj1 (weiToMon_sign 1 18 ltac:(lia))). lia.
Defined.

End AmountConverter.

(** ** Protocol registry: further properties *)

Lemma lowerChar_idempotent c : lowerChar (lowerChar c) = lowerChar c.
Proof. destruct c as [[] [] [] [] [] [] [] []]; reflexivity. Qed.

Lemma toLowerCase_idempotent s : toLowerCase (toLowerCase s) = toLowerCase s.
Proof.
  induction s as [|c s IH]; [reflexivity|].
  cbn [toLowerCase]. now rewrite lowerChar_idempotent, IH.
Qed.

(** X6. Every entry of the reverse index comes from the registry and
    is normalised: its key is in lower case (so that a key with an
    upper-case letter is never found), and it is the lower-case form of
    an address that the protocol of that name declares. *)
Theorem contractToProtocol_sound (protocols : ProtocolsFile)
    (key name : string) :
  contractToProtocol protocols !! key = Some name ->
  toLowerCase key = key
  /\ exists cfg addr,
       (name, cfg) ∈ protocols /\ addr ∈ contractsOrEmpty cfg
       /\ toLowerCase addr = key.
Proof.
  induction protocols as [|[name' cfg'] protocols IH] using rev_ind.
  - now rewrite contractToProtocol_nil.
  - rewrite contractToProtocol_snoc. case_bool_decide as Hin.
    + intros [= ->].
      apply list_elem_of_fmap in Hin as [addr [-> Hin]].
      split; [apply toLowerCase_idempotent|].
      exists cfg', addr. repeat split; [|exact Hin].
      apply elem_of_app. right. apply list_elem_of_here.
    + intros [Hkey (cfg & addr & Hp & Ha & Hl)]%IH.
      split; [exact Hkey|]. exists cfg, addr. repeat split; try assumption.
      apply elem_of_app. now left.
Qed.

Lemma contractToProtocol_sound_witness :
  let protocols := [("Alpha", Samples.config ["0xAbCd"])] in
  contractToProtocol protocols !! "0xabcd" = Some "Alpha"
  /\ toLowerCase "0xabcd" = "0xabcd".
Proof.
  intros protocols. split; [reflexivity|].
  apply (proj1 (contractToProtocol_sound protocols "0xabcd" "Alpha" eq_refl)).
Defined.

(** ** Flow aggregator: what one record does *)

Section OneRecord.

Implicit Types (idx : gmap string string) (m : JsMap.t Num.number).
Implicit Types (log : Log) (pad a s t : string).

Lemma slice_app pad a : slice (String.length pad) (pad +:+ a) = a.
Proof.
  induction pad as [|c pad IH]; [reflexivity|].
  rewrite append_cons. cbn [String.length slice]. exact IH.
Qed.

Lemma slice_padded n pad a :
  String.length pad = n -> slice n (pad +:+ a) = a.
Proof. intros <-. apply slice_app. Qed.

Lemma toLowerCase_app s t :
  toLowerCase (s +:+ t) = toLowerCase s +:+ toLowerCase t.
Proof.
  induction s as [|c s IH]; [reflexivity|].
  rewrite append_cons. cbn [toLowerCase]. now rewrite append_cons, IH.
Qed.

Lemma truthy_padded pad a :
  String.length pad = 26%nat -> truthy (Some (pad +:+ a)) = true.
Proof. intros Hlen. destruct pad; [discriminate | reflexivity]. Qed.

(** X7. The endpoints of a transfer are read from what follows the
    first 26 characters of the two address topics, in lower case: a
    record whose topics are 26 characters of padding followed by the
    texts [a1] and [a2] is classified by the index entries of the
    lower-case forms of ["0x" + a1] and ["0x" + a2], whatever the
    padding and the letter case used in the topics. *)
Theorem processLog_by_address idx log m topic0 pad1 a1 pad2 a2 rest amount :
  topics log = topic0 :: (pad1 +:+ a1) :: (pad2 +:+ a2) :: rest ->
  String.length pad1 = 26%nat -> String.length pad2 = 26%nat ->
  toLowerCase topic0 = TRANSFER_TOPIC ->
  hexToBigInt (data log) = Ok amount ->
  processLog idx log m
  = Ok (applyFlows (idx !! toLowerCase ("0x" +:+ a1))
                   (idx !! toLowerCase ("0x" +:+ a2))
                   (weiToMon amount defaultDecimals) m).
Proof.
  intros Htopics Hlen1 Hlen2 Htopic Hdata. unfold processLog.
  rewrite Htopics. cbn [lookup list_lookup]. rewrite Htopic.
  rewrite String.eqb_refl, !truthy_padded by assumption.
  cbn [negb orb str default id]. rewrite Hdata. cbn [bind].
  rewrite (slice_padded 26 pad1 a1 Hlen1), (slice_padded 26 pad2 a2 Hlen2).
  now rewrite !toLowerCase_app.
Qed.

Lemma processLog_by_address_witness :
  let log := Samples.transfer Samples.wallet1 Samples.alphaContract
               Samples.oneToken in
  let idx := contractToProtocol Samples.alphaOnly in
  processLog idx log JsMap.empty
  = Ok (applyFlows
          (idx !! toLowerCase ("0x" +:+ slice 2 Samples.wallet1))
          (idx !! toLowerCase ("0x" +:+ slice 2 Samples.alphaContract))
          (weiToMon (10 ^ 18) defaultDecimals) JsMap.empty).
Proof.
  intros log idx.
  apply (processLog_by_address idx log JsMap.empty TRANSFER_TOPIC
           "0x000000000000000000000000" (slice 2 Samples.wallet1)
           "0x000000000000000000000000" (slice 2 Samples.alphaContract)
           [] (10 ^ 18)); reflexivity.
Defined.

(** X8. A record whose data decodes to zero or to a negative amount
    changes nothing, whatever its endpoints: the guard of [addFlow]
    rejects the converted amount. *)
Theorem processLog_nonpositive_amount idx log m topic0 amount :
  topics log !! 0%nat = Some topic0 ->
  hexToBigInt (data log) = Ok amount -> amount <= 0 ->
  processLog idx log m = Ok m.
Proof.
  intros H0 Hdata Hle. unfold processLog. rewrite H0.
  destruct (negb (String.eqb (toLowerCase topic0) TRANSFER_TOPIC));
    [reflexivity|].
  destruct (negb (truthy (topics log !! 1%nat))
            || negb (truthy (topics log !! 2%nat))); [reflexivity|].
  rewrite Hdata. cbn [bind]. rewrite applyFlows_rejected; [reflexivity|].
  apply NumFacts.weak_true_leb, NumFacts.weiToMon_nonpos; [exact Hle|].
  vm_compute. discriminate.
Qed.

Lemma processLog_nonpositive_amount_witness :
  let log := Samples.transfer Samples.wallet1 Samples.alphaContract "-5" in
  processLog (contractToProtocol Samples.alphaOnly) log
    [("Wallets|||Alpha", Samples.one)]
  = Ok [("Wallets|||Alpha", Samples.one)].
Proof.
  intros log.
  apply (processLog_nonpositive_amount _ log _ TRANSFER_TOPIC (-5));
    [reflexivity | reflexivity | lia].
Defined.

Lemma applyFlows_specEdge (fromProt toProt : option string) vol m :
  fromProt <> Some "" -> toProt <> Some "" ->
  applyFlows fromProt toProt vol m
  = match specEdge (specClassify fromProt toProt) with
    | Some (source, target) => addFlow source target vol m
    | None => m
    end.
Proof.
  intros Hf Ht. unfold applyFlows.
  destruct fromProt as [f|], toProt as [t|]; cbn [specClassify].
  - rewrite !truthy_Some by congruence. cbn [negb andb].
    destruct (decide (f = t)) as [->|Hne].
    + now rewrite !bool_decide_eq_true_2.
    + rewrite !bool_decide_eq_false_2 by congruence. reflexivity.
  - rewrite truthy_Some by congruence. reflexivity.
  - rewrite truthy_Some by congruence. reflexivity.
  - reflexivity.
Qed.

Lemma addFlow_accepted source target vol m :
  Num.leb vol Num.zero = false ->
  addFlow source target vol m = record m (flowKey source target, vol).
Proof. intros H. unfold addFlow, record. now rewrite H. Qed.

Lemma positive_not_leb (v : Num.number) :
  Num.positive v -> Num.leb v Num.zero = false.
Proof. destruct v as [s|[]| |[] mv ev]; simpl; tauto. Qed.

(** X9. A transfer of a positive amount whose endpoints fall in one of
    the three edge cases is always recorded: the record is processed
    without an exception, the converted amount is added to what the map
    holds for the key of the edge (to [0] when the key is new), every
    other key keeps its value, and the keys keep their order, a new key
    going last. *)
Theorem transfer_recorded idx log m topic0 topicFrom topicTo rest amount
    (source target : string) :
  topics log = topic0 :: topicFrom :: topicTo :: rest ->
  toLowerCase topic0 = TRANSFER_TOPIC ->
  topicFrom <> "" -> topicTo <> "" ->
  hexToBigInt (data log) = Ok amount -> 0 < amount ->
  let fromProt := idx !! ("0x" +:+ toLowerCase (slice 26 topicFrom)) in
  let toProt := idx !! ("0x" +:+ toLowerCase (slice 26 topicTo)) in
  fromProt <> Some "" -> toProt <> Some "" ->
  specEdge (specClassify fromProt toProt) = Some (source, target) ->
  let key := flowKey source target in
  exists m',
    processLog idx log m = Ok m'
    /\ JsMap.get key m'
       = Some (Num.add (Num.orZero (JsMap.get key m))
                       (weiToMon amount defaultDecimals))
    /\ (forall k, k <> key -> JsMap.get k m' = JsMap.get k m)
    /\ JsMap.keys m'
       = if bool_decide (key ∈ JsMap.keys m) then JsMap.keys m
         else JsMap.keys m ++ [key].
Proof.
  intros Htopics Htopic Hfrom Hto Hdata Hpos fromProt toProt Hf Ht Hedge key.
  assert (Num.leb (weiToMon amount defaultDecimals) Num.zero = false) as Hvol.
  { apply positive_not_leb, NumBounds.weiToMon_positive; [exact Hpos|].
    vm_compute. discriminate. }
  eexists. split; [|split; [|split]].
  - unfold processLog. rewrite Htopics. cbn [lookup list_lookup].
    rewrite Htopic, String.eqb_refl, !truthy_Some by assumption.
    cbn [negb orb str default id]. rewrite Hdata. cbn [bind].
    fold fromProt toProt. rewrite applyFlows_specEdge by assumption.
    rewrite Hedge. rewrite addFlow_accepted by exact Hvol. reflexivity.
  - rewrite get_record. cbn [fst snd]. now rewrite bool_decide_eq_true_2.
  - intros k Hk. rewrite get_record. cbn [fst snd].
    rewrite bool_decide_eq_false_2; [reflexivity|].
    intros E. apply Hk. symmetry. exact E.
  - unfold record. cbn [fst snd]. apply JsMapFacts.keys_set.
Qed.

Lemma transfer_recorded_witness :
  let log := Samples.transfer Samples.wallet1 Samples.alphaContract
               Samples.oneToken in
  let idx := contractToProtocol Samples.alphaOnly in
  exists m',
    processLog idx log [("Wallets|||Alpha", Samples.one)] = Ok m'
    /\ JsMap.get (flowKey "Wallets" "Alpha") m'
       = Some (Num.add
                 (Num.orZero (JsMap.get (flowKey "Wallets" "Alpha")
                                [("Wallets|||Alpha", Samples.one)]))
                 (weiToMon (10 ^ 18) defaultDecimals)).
Proof.
  intros log idx.
  pose proof (transfer_recorded idx log [("Wallets|||Alpha", Samples.one)]
                TRANSFER_TOPIC (Samples.topicOf Samples.wallet1)
                (Samples.topicOf Samples.alphaContract) [] (10 ^ 18)
                "Wallets" "Alpha") as H.
  cbv zeta in H.
  destruct H as (m' & Hrun & Hget & _).
  - reflexivity.
  - vm_compute. reflexivity.
  - vm_compute. discriminate.
  - vm_compute. discriminate.
  - vm_compute. reflexivity.
  - vm_compute. reflexivity.
  - vm_compute. discriminate.
  - vm_compute. discriminate.
  - vm_compute. reflexivity.
  - exists m'. split; [exact Hrun | exact Hget].
Defined.

End OneRecord.

(** ** Flow aggregator: whole runs *)

Section Runs.

Implicit Types (idx : gmap string string) (m : JsMap.t Num.number).
Implicit Types (log : Log) (logs : list Log) (e : exn).

(** Whether a record throws depends neither on the index nor on the
    map. *)
Lemma processLog_Throw idx log m e :
  processLog idx log m = Throw e <-> Offending log e.
Proof.
  unfold processLog, Offending.
  destruct (topics log) as [|t0 [|t1 [|t2 rest]]] eqn:Ht;
    cbn [lookup list_lookup].
  - split.
    + intros [= <-]. now left.
    + intros [[_ ->]|(? & ? & ? & ? & H & _)]; [reflexivity | discriminate H].
  - cbn [truthy negb orb].
    destruct (negb (String.eqb (toLowerCase t0) TRANSFER_TOPIC)).
    all: split; [discriminate|].
    all: intros [[H _]|(? & ? & ? & ? & H & _)]; discriminate H.
  - cbn [truthy negb]. rewrite orb_true_r.
    destruct (negb (String.eqb (toLowerCase t0) TRANSFER_TOPIC)).
    all: split; [discriminate|].
    all: intros [[H _]|(? & ? & ? & ? & H & _)]; discriminate H.
  - destruct (String.eqb_spec (toLowerCase t0) TRANSFER_TOPIC) as [Heq|Hne];
      cbn [negb].
    2:{ split; [discriminate|].
        intros [[H _]|(? & ? & ? & ? & H & H' & _)]; [discriminate H|].
        injection H as <- _ _ _. contradiction. }
    cbn [truthy].
    destruct (String.eqb_spec t1 "") as [->|H1]; cbn [negb orb].
    { split; [discriminate|].
      intros [[H _]|(? & ? & ? & ? & H & _ & H' & _)]; [discriminate H|].
      injection H as _ <- _ _. contradiction. }
    destruct (String.eqb_spec t2 "") as [->|H2]; cbn [negb orb].
    { split; [discriminate|].
      intros [[H _]|(? & ? & ? & ? & H & _ & _ & H' & _)]; [discriminate H|].
      injection H as _ _ <- _. contradiction. }
    destruct (hexToBigInt (data log)) as [amount|e0]; cbn [bind].
    + split; [discriminate|].
      intros [[H _]|(? & ? & ? & ? & _ & _ & _ & _ & H)]; discriminate H.
    + split.
      * intros [= <-]. right. now exists t0, t1, t2, rest.
      * intros [[H _]|(? & ? & ? & ? & _ & _ & _ & _ & H)];
          [discriminate H | congruence].
Qed.

Lemma processLogs_Throw idx logs : forall m e,
  processLogs idx logs m = Throw e
  <-> exists before log after,
        logs = before ++ log :: after
        /\ Offending log e
        /\ forall x e', x ∈ before -> ~ Offending x e'.
Proof.
  induction logs as [|log logs IH]; intros m e; cbn [processLogs].
  - split; [discriminate|].
    intros (before & x & after & H & _). now destruct before.
  - destruct (processLog idx log m) as [m'|e0] eqn:Hlog; cbn [bind].
    + rewrite IH. split.
      * intros (before & x & after & -> & Hx & Hbefore).
        exists (log :: before), x, after. repeat split; [exact Hx|].
        intros y e' [->|Hin]%elem_of_cons Hy; [|now apply (Hbefore y e')].
        apply (processLog_Throw idx _ m) in Hy. congruence.
      * intros (before & x & after & Heq & Hx & Hbefore).
        destruct before as [|y before]; cbn in Heq; injection Heq as <- ->.
        -- apply (processLog_Throw idx _ m) in Hx. congruence.
        -- exists before, x, after. repeat split; [exact Hx|].
           intros z e' Hin. apply Hbefore. now apply list_elem_of_further.
    + apply processLog_Throw in Hlog. split.
      * intros [= <-]. exists [], log, logs. repeat split; [exact Hlog|].
        intros x e' Hin. now apply elem_of_nil in Hin.
      * intros (before & x & after & Heq & Hx & Hbefore).
        destruct before as [|y before]; cbn in Heq; injection Heq as <- ->.
        -- f_equal. destruct Hlog as [[Ht ->]|(? & ? & ? & ? & Ht & _ & _ & _ & Hd)],
             Hx as [[Ht' ->]|(? & ? & ? & ? & Ht' & _ & _ & _ & Hd')];
             congruence.
        -- exfalso. apply (Hbefore log e0); [apply list_elem_of_here | exact Hlog].
Qed.

(** X10. [buildFlowsForPeriod] throws exactly when some record is
    offending, that is has no topic at all (a [TypeError]) or passes the
    checks on its three topics with data that [BigInt] rejects (its
    [SyntaxError]); the exception is that of the first offending record,
    and no report is returned. Records with a wrong first topic or a
    missing address topic never throw, whatever their data. *)
Theorem buildFlowsForPeriod_throws (protocols : ProtocolsFile)
    (logs : list Log) (now : string) (e : exn) :
  buildFlowsForPeriod protocols logs now = Throw e
  <-> exists before log after,
        logs = before ++ log :: after
        /\ Offending log e
        /\ forall x e', x ∈ before -> ~ Offending x e'.
Proof.
  rewrite <- (processLogs_Throw (contractToProtocol protocols) logs
                JsMap.empty e).
  unfold buildFlowsForPeriod.
  destruct (processLogs _ logs JsMap.empty); cbn [bind];
    split; (discriminate || (intros [= <-]; reflexivity)).
Qed.

(** X11. When every record has at least one topic and data that
    [hexToBigInt] decodes, [buildFlowsForPeriod] returns a report; its
    period is ["raw"] and its time stamp the one it was given. *)
Theorem buildFlowsForPeriod_returns (protocols : ProtocolsFile)
    (logs : list Log) (now : string) :
  (forall log, log ∈ logs ->
     topics log <> [] /\ exists amount, hexToBigInt (data log) = Ok amount) ->
  exists total edges,
    buildFlowsForPeriod protocols logs now
    = Ok {| period := "raw"; lastUpdated := now;
            totalVolume := total; flows := edges |}.
Proof.
  intros Hlogs. unfold buildFlowsForPeriod.
  destruct (processLogs _ logs JsMap.empty) as [m|e] eqn:Hrun; cbn [bind].
  - now eexists _, _.
  - exfalso. apply processLogs_Throw in Hrun
      as (before & log & after & -> & Hoff & _).
    destruct (Hlogs log) as [Htopics [amount Hdata]].
    { apply elem_of_app. right. apply list_elem_of_here. }
    destruct Hoff as [[Ht _]|(? & ? & ? & ? & _ & _ & _ & _ & Hd)];
      congruence.
Qed.

Lemma buildFlowsForPeriod_returns_witness :
  let logs := [Samples.transfer Samples.wallet1 Samples.alphaContract
                 Samples.oneToken] in
  exists total edges,
    buildFlowsForPeriod Samples.alphaOnly logs "2024-01-01T00:00:00.000Z"
    = Ok {| period := "raw"; lastUpdated := "2024-01-01T00:00:00.000Z";
            totalVolume := total; flows := edges |}.
Proof.
  intros logs. apply buildFlowsForPeriod_returns.
  intros log Hin. apply list_elem_of_singleton in Hin. subst log.
  split; [discriminate|]. exists (10 ^ 18). vm_compute. reflexivity.
Defined.

Lemma processLogs_app idx (logs1 logs2 : list Log) m :
  processLogs idx (logs1 ++ logs2) m
  = let! m1 := processLogs idx logs1 m in processLogs idx logs2 m1.
Proof.
  revert m. induction logs1 as [|log logs1 IH]; intros m; [reflexivity|].
  cbn [app processLogs].
  destruct (processLog idx log m) as [m'|e]; cbn [bind]; [apply IH|reflexivity].
Qed.


Lemma keys_record_prefix m (c : string * Num.number) :
  JsMap.keys m `prefix_of` JsMap.keys (record m c).
Proof.
  unfold record. rewrite JsMapFacts.keys_set.
  case_bool_decide; [reflexivity | now apply prefix_app_r].
Qed.

Lemma keys_foldl_record_prefix (cs : list (string * Num.number)) : forall m,
  JsMap.keys m `prefix_of` JsMap.keys (foldl record m cs).
Proof.
  induction cs as [|c cs IH]; intros m; [reflexivity|].
  cbn [foldl]. etransitivity; [apply keys_record_prefix | apply IH].
Qed.

Lemma edgePairs_keys (report : FlowFile) m :
  flows report = flowOfEntry <$> JsMap.entries m ->
  edgePairs report = pairOfKey <$> JsMap.keys m.
Proof.
  intros Hflows. unfold edgePairs, JsMap.keys, JsMap.entries in *.
  rewrite Hflows, <- !list_fmap_compose. reflexivity.
Qed.

(** X13. The flows list only grows at its end: the edges of the report
    of a batch are, pair for pair and in the same order, the first
    edges of the report of any longer batch that starts with it. *)
Theorem flows_append_only (protocols : ProtocolsFile)
    (logs1 logs2 : list Log) (now1 now2 : string) (report1 report2 : FlowFile) :
  buildFlowsForPeriod protocols logs1 now1 = Ok report1 ->
  buildFlowsForPeriod protocols (logs1 ++ logs2) now2 = Ok report2 ->
  edgePairs report1 `prefix_of` edgePairs report2.
Proof.
  unfold buildFlowsForPeriod. rewrite processLogs_app.
  destruct (processLogs _ logs1 JsMap.empty) as [m1|e1]; [|discriminate].
  cbn [bind]. intros [= <-]. rewrite processLogs_contribs.
  destruct (allContribs _ logs2) as [cs|e2]; [|discriminate].
  cbn [bind]. intros [= <-].
  rewrite (edgePairs_keys _ m1), (edgePairs_keys _ (foldl record m1 cs))
    by reflexivity.
  destruct (keys_foldl_record_prefix cs m1) as [k ->].
  rewrite fmap_app. now apply prefix_app_r.
Qed.

Lemma flows_append_only_witness :
  let t1 := Samples.transfer Samples.wallet1 Samples.alphaContract
              Samples.oneToken in
  let t2 := Samples.transfer Samples.alphaContract Samples.wallet2
              Samples.oneToken in
  exists report1 report2,
    buildFlowsForPeriod Samples.alphaOnly [t1] "2024-01-01T00:00:00.000Z"
    = Ok report1
    /\ buildFlowsForPeriod Samples.alphaOnly ([t1] ++ [t2; t1])
         "2024-01-02T00:00:00.000Z"
       = Ok report2
    /\ edgePairs report1 `prefix_of` edgePairs report2.
Proof.
  intros t1 t2. eexists _, _.
  split; [vm_compute; reflexivity|]. split; [vm_compute; reflexivity|].
  eapply (flows_append_only Samples.alphaOnly [t1] [t2; t1]);
    vm_compute; reflexivity.
Defined.

Lemma processLog_unmapped idx log m m' :
  (forall key, idx !! key = None) -> processLog idx log m = Ok m' -> m' = m.
Proof.
  intros Hidx. unfold processLog.
  destruct (topics log !! 0%nat) as [topic0|]; [|discriminate].
  destruct (negb (String.eqb (toLowerCase topic0) TRANSFER_TOPIC));
    [now intros [= <-]|].
  destruct (negb (truthy (topics log !! 1%nat))
            || negb (truthy (topics log !! 2%nat))); [now intros [= <-]|].
  destruct (hexToBigInt (data log)) as [amount|e]; [|discriminate].
  cbn [bind]. rewrite !Hidx. now intros [= <-].
Qed.

Lemma processLogs_unmapped idx logs : forall m m',
  (forall key, idx !! key = None) -> processLogs idx logs m = Ok m' -> m' = m.
Proof.
  induction logs as [|log logs IH]; intros m m' Hidx; cbn [processLogs].
  - now intros [= <-].
  - destruct (processLog idx log m) as [m1|e] eqn:Hlog; [|discriminate].
    cbn [bind]. intros Hrest.
    apply (processLog_unmapped idx log m m1 Hidx) in Hlog. subst m1.
    now apply IH.
Qed.

(** X14. With a registry that declares no contract, in particular with
    the empty registry that a missing [protocols.json] gives, a run that
    does not throw reports no edge and a total of [0], whatever the
    records. *)
Theorem no_contract_no_edge (protocols : ProtocolsFile) (logs : list Log)
    (now : string) (report : FlowFile) :
  (forall name cfg, (name, cfg) ∈ protocols -> contractsOrEmpty cfg = []) ->
  buildFlowsForPeriod protocols logs now = Ok report ->
  flows report = [] /\ totalVolume report = Num.zero.
Proof.
  intros Hempty. unfold buildFlowsForPeriod.
  destruct (processLogs _ logs JsMap.empty) as [m|e] eqn:Hrun; [|discriminate].
  cbn [bind]. intros [= <-].
  apply processLogs_unmapped in Hrun.
  - subst m. split; reflexivity.
  - intros key. apply contractToProtocol_None. intros name cfg Hin.
    rewrite (Hempty name cfg Hin). apply not_elem_of_nil.
Qed.

Lemma no_contract_no_edge_witness :
  let logs := [Samples.transfer Samples.wallet1 Samples.alphaContract
                 Samples.oneToken] in
  exists report,
    buildFlowsForPeriod [] logs "2024-01-01T00:00:00.000Z" = Ok report
    /\ flows report = [] /\ totalVolume report = Num.zero.
Proof.
  intros logs. eexists. split; [vm_compute; reflexivity|].
  apply (no_contract_no_edge [] logs "2024-01-01T00:00:00.000Z").
  - intros name cfg Hin. now apply elem_of_nil in Hin.
  - vm_compute. reflexivity.
Defined.

Lemma sum_positive (edges : list FlowEntry) : forall acc,
  Num.positive acc -> Forall (fun f => Num.positive (volume f)) edges ->
  Num.positive (foldl (fun sum f => Num.add sum (volume f)) acc edges).
Proof.
  induction edges as [|f edges IH]; intros acc Hacc Hall; [exact Hacc|].
  apply Forall_cons in Hall as [Hf Hall]. cbn [foldl].
  apply IH; [now apply NumFacts.add_positive | exact Hall].
Qed.

(** X15. The total volume of a report is [0] exactly when the report
    has no edge, and is strictly positive otherwise. *)
Theorem totalVolume_positive (protocols : ProtocolsFile) (logs : list Log)
    (now : string) (report : FlowFile) :
  buildFlowsForPeriod protocols logs now = Ok report ->
  (flows report = [] /\ totalVolume report = Num.zero)
  \/ (flows report <> [] /\ Num.ltb Num.zero (totalVolume report) = true).
Proof.
  unfold buildFlowsForPeriod.
  destruct (processLogs _ logs JsMap.empty) as [m|e] eqn:Hrun; [|discriminate].
  cbn [bind]. intros [= <-]. cbn [flows totalVolume].
  apply volumeMap_positive in Hrun. unfold JsMap.entries.
  destruct m as [|[key v] m]; [now left|right].
  split; [discriminate|].
  apply Forall_cons in Hrun as [Hv Hm]. cbn [snd] in Hv.
  apply NumFacts.positive_ltb. unfold sumVolumes.
  rewrite fmap_cons. cbn [foldl]. apply sum_positive.
  - unfold flowOfEntry. cbn [volume snd].
    now rewrite NumFacts.add_zero_positive.
  - apply Forall_fmap. eapply Forall_impl; [exact Hm|].
    intros [k w] Hw. exact Hw.
Qed.

Lemma totalVolume_positive_witness :
  let logs := [Samples.transfer Samples.wallet1 Samples.alphaContract
                 Samples.oneToken] in
  exists report,
    buildFlowsForPeriod Samples.alphaOnly logs "2024-01-01T00:00:00.000Z"
    = Ok report
    /\ ((flows report = [] /\ totalVolume report = Num.zero)
        \/ (flows report <> []
            /\ Num.ltb Num.zero (totalVolume report) = true)).
Proof.
  intros logs. eexists. split; [vm_compute; reflexivity|].
  apply (totalVolume_positive Samples.alphaOnly logs
           "2024-01-01T00:00:00.000Z").
  vm_compute. reflexivity.
Defined.

Lemma flowCalls_edge (protocols : ProtocolsFile) fromProt toProt :
  RegistryName protocols fromProt -> RegistryName protocols toProt ->
  Forall (fun call => EdgeKey protocols (flowKey call.1 call.2))
         (flowCalls fromProt toProt).
Proof.
  intros Hf Ht. unfold flowCalls.
  destruct fromProt as [f|], toProt as [t|]; cbn [truthy str default negb andb];
    try (repeat constructor; fail).
  - destruct Hf as [Hf Hfin], Ht as [Ht Htin].
    destruct (String.eqb_spec f "") as [->|Hfne],
             (String.eqb_spec t "") as [->|Htne];
      cbn [negb andb app]; try (repeat constructor; fail).
    + repeat constructor. exists "Wallets", t. cbn [fst snd].
      repeat split; try assumption; try discriminate; [now left|now right].
    + repeat constructor. exists f, "Wallets". cbn [fst snd].
      repeat split; try assumption; try discriminate;
        [now right|now left|auto].
    + case_bool_decide as Hsame; cbn [negb]; repeat constructor.
      exists f, t. cbn [fst snd].
      repeat split; try assumption; [now right|now right|].
      intros ->. now destruct Hsame.
  - destruct Hf as [Hf Hfin].
    destruct (String.eqb_spec f "") as [->|Hfne]; cbn [negb andb app];
      repeat constructor.
    exists f, "Wallets". cbn [fst snd].
    repeat split; try assumption; try discriminate;
      [now right|now left|auto].
  - destruct Ht as [Ht Htin].
    destruct (String.eqb_spec t "") as [->|Htne]; cbn [negb andb app];
      repeat constructor.
    exists "Wallets", t. cbn [fst snd].
    repeat split; try assumption; try discriminate; [now left|now right].
Qed.

Lemma logContribs_edge (protocols : ProtocolsFile) idx log cs :
  (forall addr, RegistryName protocols (idx !! addr)) ->
  logContribs idx log = Ok cs -> Forall (fun c => EdgeKey protocols c.1) cs.
Proof.
  intros Hidx. unfold logContribs.
  destruct (topics log !! 0%nat) as [topic0|]; [|discriminate].
  destruct (negb (String.eqb (toLowerCase topic0) TRANSFER_TOPIC));
    [intros [= <-]; constructor|].
  destruct (negb (truthy (topics log !! 1%nat))
            || negb (truthy (topics log !! 2%nat))); [intros [= <-]; constructor|].
  destruct (hexToBigInt (data log)) as [valueBig|e]; [|discriminate].
  cbn [bind]. intros [= <-]. unfold callContribs.
  destruct (Num.leb _ Num.zero); [constructor|].
  apply Forall_fmap. eapply Forall_impl; [apply flowCalls_edge; apply Hidx|].
  intros [s t] H. exact H.
Qed.

Lemma allContribs_edge (protocols : ProtocolsFile) idx logs :
  (forall addr, RegistryName protocols (idx !! addr)) ->
  forall cs, allContribs idx logs = Ok cs ->
             Forall (fun c => EdgeKey protocols c.1) cs.
Proof.
  intros Hidx. induction logs as [|log logs IH]; intros cs.
  - intros [= <-]. constructor.
  - intros (c & cs' & Hc & Hcs & ->)%allContribs_cons.
    apply Forall_app. split; [now apply (logContribs_edge protocols idx log) | auto].
Qed.

(** X16. When no protocol name contains [|], both ends of every edge of
    a report are non-empty names that are ["Wallets"] or a protocol of
    the registry, and an edge joins a name to itself only when that
    name is ["Wallets"], which takes a protocol of this name. *)
Theorem flows_endpoints (protocols : ProtocolsFile) (logs : list Log)
    (now : string) (report : FlowFile) :
  Forall (fun p => noBar p.1 = true) protocols ->
  buildFlowsForPeriod protocols logs now = Ok report ->
  forall f, f ∈ flows report ->
    exists s t,
      source f = Some s /\ target f = Some t
      /\ Endpoint protocols s /\ Endpoint protocols t
      /\ s <> "" /\ t <> "" /\ (s = t -> s = "Wallets").
Proof.
  intros Hnames. unfold buildFlowsForPeriod. rewrite processLogs_contribs.
  destruct (allContribs _ logs) as [cs|e] eqn:Hcs; [|discriminate].
  cbn [bind]. intros [= <-] f. cbn [flows].
  intros ([key v] & -> & Hin)%list_elem_of_fmap.
  assert (key ∈ JsMap.keys (foldl record JsMap.empty cs)) as Hkey.
  { unfold JsMap.keys. apply list_elem_of_fmap. now exists (key, v). }
  apply keys_foldl_record in Hkey as [Hkey|Hkey];
    [now apply elem_of_nil in Hkey|].
  apply list_elem_of_fmap in Hkey as (c & -> & Hc).
  apply (allContribs_edge protocols) in Hcs.
  - rewrite Forall_forall in Hcs.
    destruct (Hcs c Hc) as (s & t & Hk & Hs & Ht & Hes & Het & Hsne & Htne & Hst).
    exists s, t. unfold flowOfEntry. cbn [source target fst].
    rewrite Hk, split_flowKey by assumption. now repeat split.
  - intros addr.
    destruct (contractToProtocol protocols !! addr) as [name|] eqn:Hget;
      [|exact I].
    split.
    + pose proof (contractToProtocol_noBar protocols Hnames addr) as H.
      now rewrite Hget in H.
    + now apply contractToProtocol_Some in Hget.
Qed.

Lemma flows_endpoints_witness :
  let logs := [Samples.transfer Samples.wallet1 Samples.alphaContract
                 Samples.oneToken] in
  exists report f,
    buildFlowsForPeriod Samples.alphaOnly logs "2024-01-01T00:00:00.000Z"
    = Ok report
    /\ flows report = [f]
    /\ exists s t,
         source f = Some s /\ target f = Some t
         /\ Endpoint Samples.alphaOnly s /\ Endpoint Samples.alphaOnly t
         /\ s <> "" /\ t <> "" /\ (s = t -> s = "Wallets").
Proof.
  intros logs. eexists _, _.
  split; [vm_compute; reflexivity|]. split; [reflexivity|].
  eapply (flows_endpoints Samples.alphaOnly logs "2024-01-01T00:00:00.000Z").
  - vm_compute. repeat constructor.
  - vm_compute. reflexivity.
  - apply list_elem_of_here.
Defined.

(** A protocol that is itself named ["Wallets"] does give an edge from
    ["Wallets"] to ["Wallets"]. *)
Example wallets_self_loop :
  let protocols :=
    [("Wallets", {| contracts := Some [Samples.alphaContract];
                    category := None |})] in
  let logs := [Samples.transfer Samples.wallet1 Samples.alphaContract
                 Samples.oneToken] in
  exists report,
    buildFlowsForPeriod protocols logs "2024-01-01T00:00:00.000Z" = Ok report
    /\ edgePairs report = [(Some "Wallets", Some "Wallets")].
Proof. eexists. split; vm_compute; reflexivity. Qed.

End Runs.
